(** * Anchored path routing (qiskit_metal/components/interconnects/anchored_path.py)

    A shallow embedding of the segment intersection test [intersecting], of
    the obstruction checker [RouteAnchors.unobstructed], of the leg planner
    [RouteAnchors.connect_simple] and of the orchestrator [RouteAnchors.make],
    with the properties of the routing specification stated over it; then
    the logger set-up of toolbox/logging.py and the straight connector of
    components/interconnects/cpw_basic_straight_line.py.

    Coordinates are exact rationals ([Q]); Python's [==], [<=], [min], [max]
    on numbers become [Qeq_bool], [Qle_bool], [Qmin], [Qmax].  Rounding of
    binary floating point is outside the model. *)

From Stdlib Require Import QArith Qminmax Qabs Qfield Lqa Psatz Lia List Bool.
From Stdlib Require String.
Import String.StringSyntax.
Delimit Scope string_scope with string.
Import ListNotations.

Local Open Scope Q_scope.

(** ** Numbers, points and faults *)

Definition point : Type := (Q * Q)%type.

(** [x > y], [x >= y], [x < y] of the source, as booleans. *)
Definition Qgt_bool (x y : Q) : bool := negb (Qle_bool x y).
Definition Qge_bool (x y : Q) : bool := Qle_bool y x.
Definition Qlt_bool (x y : Q) : bool := negb (Qle_bool y x).

(** The seven division sites of [intersecting], named after the variable
    each one assigns (source lines 62, 63, 70, 71, 81, 82, 83). *)
Inductive div_site : Type :=
| Site_m | Site_b | Site_b0 | Site_b1 | Site_m0 | Site_m1 | Site_x_intersect.


(** What can go wrong: a division whose divisor is zero (a numeric fault:
    ZeroDivisionError on Python numbers, inf or nan on numpy scalars), and
    [np.dot] applied to a direction that is [None]. *)
Inductive error : Type :=
| ZeroDivision (s : div_site)
| TypeError.

Inductive outcome (A : Type) : Type :=
| Ret (a : A)
| Raise (e : error).
Arguments Ret {A} a.
Arguments Raise {A} e.

Definition bind {A B : Type} (m : outcome A) (k : A -> outcome B) : outcome B :=
  match m with
  | Ret a => k a
  | Raise e => Raise e
  end.

Notation "x <- m ;; k" := (bind m (fun x => k))
  (at level 61, m at next level, right associativity).
Notation "' pat <- m ;; k" := (bind m (fun x => let 'pat := x in k))
  (at level 61, pat pattern, m at next level, right associativity).

(** [n / d] at division site [s]. *)
Definition divide (s : div_site) (n d : Q) : outcome Q :=
  if Qeq_bool d 0 then Raise (ZeroDivision s) else Ret (n / d).

(** [min(e1, e2) <= x <= max(e1, e2)], the chained comparison of the
    source. *)
Definition in_range (e1 e2 x : Q) : bool :=
  Qle_bool (Qmin e1 e2) x && Qle_bool x (Qmax e1 e2).

(** [not ((min(u1,u2) > max(v1,v2)) or (min(v1,v2) > max(u1,u2)))]. *)
Definition ranges_overlap (u1 u2 v1 v2 : Q) : bool :=
  negb (Qgt_bool (Qmin u1 u2) (Qmax v1 v2) || Qgt_bool (Qmin v1 v2) (Qmax u1 u2)).

(** ** The segment intersection test *)

Definition intersecting (a b c d : point) : outcome bool :=
  let '(x0_start, y0_start) := a in
  let '(x0_end, y0_end) := b in
  let '(x1_start, y1_start) := c in
  let '(x1_end, y1_end) := d in
  if Qeq_bool x0_start x0_end && Qeq_bool x1_start x1_end then
    (* two vertical lines *)
    if Qeq_bool x0_end x1_start then
      Ret (ranges_overlap y0_start y0_end y1_start y1_end)
    else Ret false
  else if Qeq_bool x0_start x0_end || Qeq_bool x1_start x1_end then
    (* one segment is vertical, the other is not; line 0 becomes the
       vertical one *)
    let '(x0_start, x0_end, x1_start, x1_end, y0_start, y0_end, y1_start, y1_end) :=
      if Qeq_bool x1_start x1_end
      then (x1_start, x1_end, x0_start, x0_end, y1_start, y1_end, y0_start, y0_end)
      else (x0_start, x0_end, x1_start, x1_end, y0_start, y0_end, y1_start, y1_end) in
    m <- divide Site_m (y1_end - y1_start) (x1_end - x1_start) ;;
    b <- divide Site_b (x1_end * y1_start - x1_start * y1_end) (x1_end - x1_start) ;;
    if in_range x1_start x1_end x0_start then
      if in_range y0_start y0_end (m * x0_start + b) then Ret true
      else Ret false
    else Ret false
  else
    (* neither line is vertical *)
    b0 <- divide Site_b0 (y0_start * x0_end - y0_end * x0_start) (x0_end - x0_start) ;;
    b1 <- divide Site_b1 (y1_start * x1_end - y1_end * x1_start) (x1_end - x1_start) ;;
    if Qeq_bool ((x1_end - x1_start) * (y0_end - y0_start))
                ((x0_end - x0_start) * (y1_end - y1_start)) then
      (* identical slopes *)
      if Qeq_bool b0 b1 then
        Ret (ranges_overlap x0_start x0_end x1_start x1_end)
      else Ret false
    else
      m0 <- divide Site_m0 (y0_end - y0_start) (x0_end - x0_start) ;;
      m1 <- divide Site_m1 (y1_end - y1_start) (x1_end - x1_start) ;;
      x_intersect <- divide Site_x_intersect (b1 - b0) (m0 - m1) ;;
      if in_range x0_start x0_end x_intersect then
        if in_range x1_start x1_end x_intersect then Ret true
        else Ret false
      else Ret false.

(** ** The obstruction checker *)

(** [qgeometry_bounds()] of a component: [(xmin, ymin, xmax, ymax)]. *)
Definition bounds : Type := (Q * Q * Q * Q)%type.

(** A segment [[p0, p1]]. *)
Definition segment : Type := (point * point)%type.

(** The pairs of corners [unobstructed] tests for one bounding box, in the
    order of the source: [(p, q), (p, r), (r, s), (q, s)]. *)
Definition tested_segments (bb : bounds) : list segment :=
  let '(xmin, ymin, xmax, ymax) := bb in
  let p := (xmin, ymin) in
  let q := (xmin, ymax) in
  let r := (xmax, ymin) in
  let s := (xmax, ymax) in
  [(p, q); (p, r); (r, s); (q, s)].

(** [any(intersecting(segment[0], segment[1], k, l) for k, l in pairs)]:
    the generator is consumed up to the first [True]. *)
Fixpoint any_intersecting (sg : segment) (pairs : list segment) : outcome bool :=
  match pairs with
  | [] => Ret false
  | (k, l) :: rest =>
      hit <- intersecting (fst sg) (snd sg) k l ;;
      if hit then Ret true else any_intersecting sg rest
  end.

(** The registry [self.design.components] is read in iteration order; only
    the bounds of each component are used. *)
Fixpoint unobstructed (components : list bounds) (sg : segment) : outcome bool :=
  match components with
  | [] => Ret true
  | bb :: rest =>
      hit <- any_intersecting sg (tested_segments bb) ;;
      if hit then Ret false else unobstructed rest sg
  end.

(** ** The leg planner *)

Record QRoutePoint : Type := mkQRoutePoint {
  position : point;
  direction : option point
}.

Definition vsub (u v : point) : point := (fst u - fst v, snd u - snd v).
Definition dot (u v : point) : Q := fst u * fst v + snd u * snd v.

(** [np.dot(start_direction, v)]; a direction that is [None] is a fault. *)
Definition np_dot (dir : option point) (v : point) : outcome Q :=
  match dir with
  | Some u => Ret (dot u v)
  | None => Raise TypeError
  end.

(** [(end_direction is None) or test(end_direction)]. *)
Definition none_or (dir : option point) (test : point -> bool) : bool :=
  match dir with
  | None => true
  | Some u => test u
  end.

(** Python's [x and y] on fallible operands: [y] runs only when [x] is true. *)
Definition and_then (x y : outcome bool) : outcome bool :=
  r <- x ;; if r then y else Ret false.

(** A statement of [connect_simple] either returns a path or falls through
    to the statements after it. *)
Notation "'first_success' s 'otherwise' k" :=
  (bind s (fun r => match r with Some path => Ret path | None => k end))
  (at level 61, s at next level, right associativity).

Definition connect_simple (components : list bounds) (avoid_collision : bool)
    (start_pt end_pt : QRoutePoint) : outcome (list point) :=
  let start_direction := direction start_pt in
  let start := position start_pt in
  let end_direction := direction end_pt in
  let end_ := position end_pt in
  let offsetx := Qabs (fst end_ - fst start) in
  let offsety := Qabs (snd end_ - snd start) in
  let stop_direction : point :=
    if Qge_bool offsetx offsety then (fst end_ - fst start, 0)
    else (0, snd end_ - snd start) in
  if Qeq_bool (fst start) (fst end_) || Qeq_bool (snd start) (snd end_) then
    d <- np_dot start_direction (vsub end_ start) ;;
    if Qge_bool d 0 then
      if none_or end_direction (fun ed => Qle_bool (dot (vsub end_ start) ed) 0)
      then Ret [start; end_]
      else Ret []
    else Ret []
  else
    let corner1 : point := (fst start, snd end_) in
    let corner2 : point := (fst end_, snd start) in
    startc1end <-
      (if avoid_collision
       then and_then (unobstructed components (start, corner1))
                     (unobstructed components (corner1, end_))
       else Ret true) ;;
    startc2end <-
      (if avoid_collision
       then and_then (unobstructed components (start, corner2))
                     (unobstructed components (corner2, end_))
       else Ret true) ;;
    first_success
      (d1 <- np_dot start_direction (vsub corner1 start) ;;
       if Qgt_bool d1 0 && startc1end then
         if none_or end_direction (fun ed => Qgt_bool (dot ed (vsub corner1 end_)) 0)
         then Ret (Some [start; corner1; end_])
         else Ret None
       else
         d2 <- np_dot start_direction (vsub corner2 start) ;;
         if Qgt_bool d2 0 && startc2end then
           if none_or end_direction (fun ed => Qgt_bool (dot ed (vsub corner2 end_)) 0)
           then Ret (Some [start; corner2; end_])
           else Ret None
         else Ret None)
    otherwise
    let '(corner3, corner4, corner5, corner6) :=
      if negb (Qeq_bool (fst stop_direction) 0)
      then (((fst start + fst end_) / 2, snd start),
            ((fst start + fst end_) / 2, snd end_),
            (fst start, (snd start + snd end_) / 2),
            (fst end_, (snd start + snd end_) / 2))
      else ((fst start, (snd start + snd end_) / 2),
            (fst end_, (snd start + snd end_) / 2),
            ((fst start + fst end_) / 2, snd start),
            ((fst start + fst end_) / 2, snd end_)) in
    startc3c4end <-
      (if avoid_collision
       then and_then (unobstructed components (start, corner3))
              (and_then (unobstructed components (corner3, corner4))
                        (unobstructed components (corner4, end_)))
       else Ret true) ;;
    startc5c6end <-
      (if avoid_collision
       then and_then (unobstructed components (start, corner5))
              (and_then (unobstructed components (corner5, corner6))
                        (unobstructed components (corner6, end_)))
       else Ret true) ;;
    first_success
      (aligned <-
         and_then (ds <- np_dot start_direction stop_direction ;; Ret (Qlt_bool ds 0))
                  (d3 <- np_dot start_direction (vsub corner3 start) ;;
                   Ret (Qgt_bool d3 0 && startc3c4end)) ;;
       if aligned then
         if none_or end_direction (fun ed => Qgt_bool (dot ed (vsub corner4 end_)) 0)
         then Ret (Some [start; corner3; corner4; end_])
         else Ret None
       else Ret None)
    otherwise first_success
      (d1 <- np_dot start_direction (vsub corner1 start) ;;
       if Qge_bool d1 0 && startc1end then
         if none_or end_direction (fun ed => Qge_bool (dot ed (vsub corner1 end_)) 0)
         then Ret (Some [start; corner1; end_])
         else Ret None
       else Ret None)
    otherwise first_success
      (d2 <- np_dot start_direction (vsub corner2 start) ;;
       if Qge_bool d2 0 && startc2end then
         if none_or end_direction (fun ed => Qge_bool (dot ed (vsub corner2 end_)) 0)
         then Ret (Some [start; corner2; end_])
         else Ret None
       else Ret None)
    otherwise first_success
      (d3 <- np_dot start_direction (vsub corner3 start) ;;
       if Qge_bool d3 0 && startc3c4end then
         if none_or end_direction (fun ed => Qge_bool (dot ed (vsub corner4 end_)) 0)
         then Ret (Some [start; corner3; corner4; end_])
         else Ret None
       else Ret None)
    otherwise first_success
      (d5 <- np_dot start_direction (vsub corner5 start) ;;
       if Qge_bool d5 0 && startc5c6end then
         if none_or end_direction (fun ed => Qge_bool (dot ed (vsub corner6 end_)) 0)
         then Ret (Some [start; corner5; corner6; end_])
         else Ret None
       else Ret None)
    otherwise Ret [].

(** ** The orchestrator *)

(** One call of [connect_simple] issued by [make]: its two arguments and the
    vertex list it returned.  The log of calls is ghost state; the source
    keeps [self.intermediate_pts] only. *)
Record leg_call : Type := mkLegCall {
  leg_start : QRoutePoint;
  leg_end : QRoutePoint;
  leg_vertices : list point
}.

Record route : Type := mkRoute {
  intermediate_pts : option (list point);
  calls : list leg_call
}.

(** Modelled from the spec: [QRoute.get_tip] is not under src/.  The tip is
    the most recently placed point with the direction from the previous
    point to it; before any point is placed it is the lead-in point. *)
Definition tip_of (head : QRoutePoint) (pts : option (list point)) : QRoutePoint :=
  match pts with
  | None | Some [] => head
  | Some (p :: rest) =>
      let placed := position head :: p :: rest in
      let tip := last placed (position head) in
      let prev := last (removelast placed) (position head) in
      mkQRoutePoint tip (Some (vsub tip prev))
  end.

Section Make.

Variable K : Type.
Variable components : list bounds.
Variable avoid_collision : bool.
(** The results of [set_lead("start")] and [set_lead("end")]. *)
Variables meander_start_point meander_end_point : QRoutePoint.
(** [self.get_tip()], which reads [self.intermediate_pts]. *)
Variable get_tip : option (list point) -> QRoutePoint.

Definition plan (st : route) (from to : QRoutePoint) : outcome (list point * route) :=
  leg <- connect_simple components avoid_collision from to ;;
  Ret (leg, mkRoute (intermediate_pts st) (calls st ++ [mkLegCall from to leg])).

(** The body of [for coord in list(anchors.values())]. *)
Definition anchor_step (st : route) (coord : point) : outcome route :=
  match intermediate_pts st with
  | None | Some [] =>
      '(leg, st') <- plan st meander_start_point (mkQRoutePoint coord None) ;;
      Ret (mkRoute (Some (tl leg)) (calls st'))
  | Some pts =>
      '(leg, st') <- plan st (get_tip (intermediate_pts st)) (mkQRoutePoint coord None) ;;
      Ret (mkRoute (Some (pts ++ tl leg)) (calls st'))
  end.

Fixpoint anchor_loop (st : route) (coords : list point) : outcome route :=
  match coords with
  | [] => Ret st
  | coord :: rest => st' <- anchor_step st coord ;; anchor_loop st' rest
  end.

Definition make (anchors : list (K * point)) : outcome route :=
  st <- anchor_loop (mkRoute None []) (map snd anchors) ;;
  '(leg, st') <- plan st (get_tip (intermediate_pts st)) meander_end_point ;;
  let last_pt := tl leg in
  match intermediate_pts st with
  | None | Some [] => Ret (mkRoute (Some last_pt) (calls st'))
  | Some pts => Ret (mkRoute (Some (pts ++ last_pt)) (calls st'))
  end.

End Make.

Arguments make {K} components avoid_collision meander_start_point
  meander_end_point get_tip anchors.

(** ** Vocabulary of the specification *)

(** The four sides of a bounding box. *)
Definition left_side (bb : bounds) : segment :=
  let '(xmin, ymin, xmax, ymax) := bb in ((xmin, ymin), (xmin, ymax)).
Definition bottom_side (bb : bounds) : segment :=
  let '(xmin, ymin, xmax, ymax) := bb in ((xmin, ymin), (xmax, ymin)).
Definition right_side (bb : bounds) : segment :=
  let '(xmin, ymin, xmax, ymax) := bb in ((xmax, ymin), (xmax, ymax)).
Definition top_side (bb : bounds) : segment :=
  let '(xmin, ymin, xmax, ymax) := bb in ((xmin, ymax), (xmax, ymax)).

Definition sides (bb : bounds) : list segment :=
  [left_side bb; bottom_side bb; right_side bb; top_side bb].

(** The two diagonals of a bounding box. *)
Definition rising_diagonal (bb : bounds) : segment :=
  let '(xmin, ymin, xmax, ymax) := bb in ((xmin, ymin), (xmax, ymax)).
Definition falling_diagonal (bb : bounds) : segment :=
  let '(xmin, ymin, xmax, ymax) := bb in ((xmin, ymax), (xmax, ymin)).

(** The tested segments as the specification words them: the top edge, the
    bottom edge and the two diagonals.  Compared below with
    [tested_segments], which is what the source tests. *)
Definition spec_tested_segments (bb : bounds) : list segment :=
  [top_side bb; bottom_side bb; rising_diagonal bb; falling_diagonal bb].

(** The intersection test answers [True] for segment [sg] against [kl]. *)
Definition hits (sg kl : segment) : Prop :=
  intersecting (fst sg) (snd sg) (fst kl) (snd kl) = Ret true.


(** ** Geometry of closed segments *)

(** [x] lies between [e1] and [e2], whichever is the smaller. *)
Definition within (e1 e2 x : Q) : Prop :=
  (e1 <= x /\ x <= e2) \/ (e2 <= x /\ x <= e1).

(** [p] lies on the closed segment from [a] to [b]. *)
Definition on_segment (p a b : point) : Prop :=
  exists t, 0 <= t /\ t <= 1 /\
    fst p == fst a + t * (fst b - fst a) /\
    snd p == snd a + t * (snd b - snd a).

(** The closed segments [ab] and [cd] have a point in common. *)
Definition share_point (a b c d : point) : Prop :=
  exists p, on_segment p a b /\ on_segment p c d.


(** [l] starts at [s], ends at [e] and has at least two vertices. *)
Definition joins (s e : point) (l : list point) : Prop :=
  exists middle, l = s :: middle ++ [e].

(** What one call contributes to the path: its vertices but the first,
    [connect_simple(...)[1:]]. *)
Definition contribution (c : leg_call) : list point := tl (leg_vertices c).

(** Modelled from the spec: [QRoute.get_points] is not under src/.  The
    finished path is the lead-in point followed by the accumulated
    vertices. *)
Definition finished_path (meander_start_point : QRoutePoint) (r : route) : list point :=
  position meander_start_point ::
  match intermediate_pts r with
  | Some pts => pts
  | None => []
  end.

(** The anchor coordinate as [make] passes it on: [QRoutePoint(coord)]. *)
Definition anchor_point (coord : point) : QRoutePoint := mkQRoutePoint coord None.

(** The logged call is a call of [connect_simple] with that result, and a
    non-empty result runs from its start to its end. *)
Definition genuine (components : list bounds) (avoid_collision : bool)
    (c : leg_call) : Prop :=
  connect_simple components avoid_collision (leg_start c) (leg_end c)
  = Ret (leg_vertices c) /\
  (leg_vertices c = [] \/
   joins (position (leg_start c)) (position (leg_end c)) (leg_vertices c)).

(** What holds of the state of [make] between two legs. *)
Definition accumulated (components : list bounds) (avoid_collision : bool)
    (meander_start_point : QRoutePoint) (st : route) : Prop :=
  Forall (genuine components avoid_collision) (calls st) /\
  ((intermediate_pts st = None /\ calls st = []) \/
   (intermediate_pts st = Some (concat (map contribution (calls st))) /\
    hd_error (map leg_start (calls st)) = Some meander_start_point)).

(** ** Vocabulary of the further properties *)





(** The names [connect_simple] gives to the corners of the rectangle
    spanned by [start] and [end]. *)
Definition wide (s e : point) : bool :=
  Qge_bool (Qabs (fst e - fst s)) (Qabs (snd e - snd s)).
Definition stop_direction (s e : point) : point :=
  if wide s e then (fst e - fst s, 0) else (0, snd e - snd s).
Definition corner1 (s e : point) : point := (fst s, snd e).
Definition corner2 (s e : point) : point := (fst e, snd s).
Definition corner3 (s e : point) : point :=
  if wide s e then ((fst s + fst e) / 2, snd s) else (fst s, (snd s + snd e) / 2).
Definition corner4 (s e : point) : point :=
  if wide s e then ((fst s + fst e) / 2, snd e) else (fst e, (snd s + snd e) / 2).
Definition corner5 (s e : point) : point :=
  if wide s e then (fst s, (snd s + snd e) / 2) else ((fst s + fst e) / 2, snd s).
Definition corner6 (s e : point) : point :=
  if wide s e then (fst e, (snd s + snd e) / 2) else ((fst s + fst e) / 2, snd e).

(** The two ends share their x or their y coordinate. *)
Definition collinear (s e : point) : Prop :=
  fst s == fst e \/ snd s == snd e.

(** The consecutive segments of a vertex list. *)
Definition legs_of (l : list point) : list segment := combine l (tl l).

(** Every segment of the path is vertical or horizontal. *)
Definition axis_aligned (l : list point) : Prop :=
  forall sg, In sg (legs_of l) ->
    fst (fst sg) == fst (snd sg) \/ snd (fst sg) == snd (snd sg).

(** Every segment of the path passes the obstruction check. *)
Definition collision_free (components : list bounds) (l : list point) : Prop :=
  forall sg, In sg (legs_of l) -> unobstructed components sg = Ret true.

(** With collision avoidance off every path passes. *)
Definition passable (components : list bounds) (ac : bool) (l : list point) : Prop :=
  ac = true -> collision_free components l.

(** The first segment does not run against the direction [sd]. *)
Definition leaves_along (sd : point) (l : list point) : Prop :=
  match l with
  | s :: p :: _ => 0 <= dot sd (vsub p s)
  | _ => True
  end.

(** Seen from the last vertex, the vertex before it does not lie against
    the direction [ed]. *)
Definition arrives_against (ed : option point) (l : list point) : Prop :=
  match ed, rev l with
  | Some u, e :: p :: _ => 0 <= dot u (vsub p e)
  | _, _ => True
  end.

(** What a non-empty leg from [s] to [e] owes its caller. *)
Definition sound_leg (components : list bounds) (ac : bool)
    (sd : point) (ed : option point) (s e : point) (l : list point) : Prop :=
  joins s e l /\ axis_aligned l /\ leaves_along sd l /\ arrives_against ed l /\
  (collinear s e -> length l = 2%nat) /\
  (~ collinear s e ->
   passable components ac l /\ (length l = 3%nat \/ length l = 4%nat)).

(** The L through corner [c] satisfies the relaxed constraints. *)
Definition acceptable_L (components : list bounds) (ac : bool)
    (sd : point) (ed : option point) (s e c : point) : Prop :=
  0 <= dot sd (vsub c s) /\
  passable components ac [s; c; e] /\
  forall u, ed = Some u -> 0 <= dot u (vsub c e).

(** The L through corner [c] satisfies the strict constraints. *)
Definition perfect_L (components : list bounds) (ac : bool)
    (sd : point) (ed : option point) (s e c : point) : Prop :=
  0 < dot sd (vsub c s) /\
  passable components ac [s; c; e] /\
  forall u, ed = Some u -> 0 < dot u (vsub c e).


(** The vertices placed by a list of calls, in order. *)
Definition placed (cs : list leg_call) : list point :=
  concat (map contribution cs).

(** Where [make] starts the leg to an anchor, given the calls made before:
    the lead-in point while no vertex has been placed, the tip of the path
    afterwards. *)
Definition leg_origin (meander_start_point : QRoutePoint)
    (get_tip : option (list point) -> QRoutePoint)
    (before : list leg_call) : QRoutePoint :=
  match placed before with
  | [] => meander_start_point
  | p :: pts => get_tip (Some (p :: pts))
  end.

(** Every call of [cs] started from its origin. *)
Definition origins_traced (meander_start_point : QRoutePoint)
    (get_tip : option (list point) -> QRoutePoint) (cs : list leg_call) : Prop :=
  forall before c after,
    cs = before ++ c :: after ->
    leg_start c = leg_origin meander_start_point get_tip before.

(** ** Logger set-up (qiskit_metal/toolbox/logging.py) *)

(** The part of Python's [logging] module that [setup_logger] touches: the
    loggers known by name, the handler objects (a logger holds references
    to its handlers, here indices into [handler_store]), and the switch of
    [logging.captureWarnings]. *)
Record Formatter : Type := mkFormatter {
  fmt : String.string;
  datefmt : String.string
}.

Record Handler : Type := mkHandler {
  handler_formatter : option Formatter;
  handler_level : Z
}.

Record Logger : Type := mkLogger {
  handlers : list nat;
  propagate : bool;
  logger_level : Z;
  zkm_c_handler : option nat;
  zkm_c_format : option Formatter
}.

Record logging_module : Type := mkLogging {
  loggers : list (String.string * Logger);
  handler_store : list Handler;
  capture_warnings : bool
}.

Definition NOTSET : Z := 0%Z.
Definition DEBUG : Z := 10%Z.
Definition INFO : Z := 20%Z.

Fixpoint find_logger (name : String.string) (ls : list (String.string * Logger))
  : option Logger :=
  match ls with
  | [] => None
  | (n, lg) :: rest => if String.eqb n name then Some lg else find_logger name rest
  end.

(** The logger [name] is replaced by [f] of it, where it stands. *)
Fixpoint update_logger (name : String.string) (f : Logger -> Logger)
    (ls : list (String.string * Logger)) : list (String.string * Logger) :=
  match ls with
  | [] => []
  | (n, lg) :: rest =>
      if String.eqb n name then (n, f lg) :: rest
      else (n, lg) :: update_logger name f rest
  end.

Fixpoint update_handler (h : nat) (f : Handler -> Handler) (hs : list Handler)
  : list Handler :=
  match hs, h with
  | [], _ => []
  | x :: rest, O => f x :: rest
  | x :: rest, S h' => x :: update_handler h' f rest
  end.

(** [logging.getLogger(name)]: the logger of that name, created without
    handlers, level NOTSET and propagating, when there is none yet. *)
Definition getLogger (name : String.string) (st : logging_module) : logging_module :=
  match find_logger name (loggers st) with
  | Some _ => st
  | None =>
      mkLogging ((name, mkLogger [] true NOTSET None None) :: loggers st)
                (handler_store st) (capture_warnings st)
  end.

(** [setup_logger]; the logger it returns is the one named [logger_name] in
    the state it leaves. *)
Definition setup_logger (logger_name log_format log_datefmt : String.string)
    (level_stream level_base : Z) (st : logging_module) : logging_module :=
  let st := getLogger logger_name st in
  match find_logger logger_name (loggers st) with
  | None => st
  | Some logger =>
      if Nat.eqb (length (handlers logger)) 0 then
        (* logging.captureWarnings(True); c_handler = logging.StreamHandler() *)
        let c_handler := length (handler_store st) in
        let store := handler_store st ++ [mkHandler None NOTSET] in
        (* logger.propagate = False *)
        let ls := update_logger logger_name
                    (fun lg => mkLogger (handlers lg) false (logger_level lg)
                                        (zkm_c_handler lg) (zkm_c_format lg))
                    (loggers st) in
        (* c_handler.setFormatter(c_format) *)
        let c_format := mkFormatter log_format log_datefmt in
        let store := update_handler c_handler
                       (fun h => mkHandler (Some c_format) (handler_level h)) store in
        (* logger.addHandler(c_handler); logger.setLevel(level_base) *)
        let ls := update_logger logger_name
                    (fun lg => mkLogger (handlers lg ++ [c_handler]) (propagate lg)
                                        level_base
                                        (zkm_c_handler lg) (zkm_c_format lg)) ls in
        (* c_handler.setLevel(level_stream) *)
        let store := update_handler c_handler
                       (fun h => mkHandler (handler_formatter h) level_stream) store in
        (* logger.zkm_c_handler = c_handler; logger.zkm_c_format = c_format *)
        let ls := update_logger logger_name
                    (fun lg => mkLogger (handlers lg) (propagate lg) (logger_level lg)
                                        (Some c_handler) (Some c_format)) ls in
        mkLogging ls store true
      else st
  end.

(** ** The straight connector (components/interconnects/cpw_basic_straight_line.py) *)

Record connector : Type := mkConnector {
  middle : point;
  normal : point
}.

Record straight_options : Type := mkStraightOptions {
  pin_start_name : String.string;
  pin_end_name : String.string;
  cpw_width : Q;
  cpw_gap : Q;
  layer : Z;
  leadin_start : Q;
  leadin_end : Q
}.

Inductive element_name : Type := center_trace | gnd_cut.

(** One ['path'] element handed to [add_elements]; [elem_layer] is [None]
    when the call leaves the layer to its default. *)
Record path_element : Type := mkPath {
  elem_name : element_name;
  line : list point;
  width : Q;
  elem_layer : option Z;
  subtract : bool
}.

Fixpoint find_connector (name : String.string)
    (connectors : list (String.string * connector)) : option connector :=
  match connectors with
  | [] => None
  | (n, c) :: rest => if String.eqb n name then Some c else find_connector name rest
  end.

(** [middle + normal * k] on numpy arrays. *)
Definition along (c : connector) (k : Q) : point :=
  (fst (middle c) + fst (normal c) * k, snd (middle c) + snd (normal c) * k).

(** [CpwStraightLine.make]: the elements it adds, or the name a [KeyError]
    reports. *)
Definition straight_make (connectors : list (String.string * connector))
    (p : straight_options) : String.string + list path_element :=
  match find_connector (pin_start_name p) connectors with
  | None => inl (pin_start_name p)
  | Some connector1 =>
      match find_connector (pin_end_name p) connectors with
      | None => inl (pin_end_name p)
      | Some connector2 =>
          let pts := [middle connector1;
                      along connector1 (cpw_width p / 2 + leadin_start p);
                      along connector2 (cpw_width p / 2 + leadin_end p);
                      middle connector2] in
          inr [mkPath center_trace pts (cpw_width p) (Some (layer p)) false;
               mkPath gnd_cut pts (cpw_width p + 2 * cpw_gap p) None true]
      end
  end.

(** * Properties *)

(** ** The examples of the specification *)

Example intersecting_touch :
  intersecting (0, 0) (1, 0) (1, 0) (1, 1) = Ret true.
Proof. reflexivity. Qed.

Example intersecting_disjoint_collinear :
  intersecting (0, 0) (1, 0) (2, 0) (3, 0) = Ret false.
Proof. reflexivity. Qed.

Example intersecting_overlap_collinear :
  intersecting (0, 0) (1, 0) (1 # 2, 0) (2, 0) = Ret true.
Proof. reflexivity. Qed.

Example intersecting_crossing :
  intersecting (0, 0) (2, 2) (0, 2) (2, 0) = Ret true.
Proof. reflexivity. Qed.

Example connect_simple_direct :
  connect_simple [] false (mkQRoutePoint (0, 0) (Some (1, 0)))
                          (mkQRoutePoint (5, 0) None)
  = Ret [(0, 0); (5, 0)].
Proof. reflexivity. Qed.

Example connect_simple_L :
  connect_simple [] false (mkQRoutePoint (0, 0) (Some (1, 0)))
                          (mkQRoutePoint (5, 5) (Some (0, -1)))
  = Ret [(0, 0); (5, 0); (5, 5)].
Proof. reflexivity. Qed.

(** ** Comparisons and ranges *)

Lemma Qgt_bool_iff x y : Qgt_bool x y = true <-> y < x.
Proof.
  unfold Qgt_bool. rewrite negb_true_iff, <- not_true_iff_false, Qle_bool_iff.
  split; [apply Qnot_le_lt | apply Qlt_not_le].
Qed.

Lemma Qge_bool_iff x y : Qge_bool x y = true <-> y <= x.
Proof. unfold Qge_bool. apply Qle_bool_iff. Qed.

Lemma Qlt_bool_iff x y : Qlt_bool x y = true <-> x < y.
Proof. unfold Qlt_bool. apply (Qgt_bool_iff y x). Qed.

Lemma Qeq_bool_false_iff x y : Qeq_bool x y = false <-> ~ x == y.
Proof. rewrite <- not_true_iff_false, Qeq_bool_iff. tauto. Qed.

Lemma Qmin_max_within e1 e2 x :
  Qmin e1 e2 <= x /\ x <= Qmax e1 e2 <-> within e1 e2 x.
Proof.
  unfold within.
  destruct (Q.min_spec e1 e2) as [[H1 H2]|[H1 H2]];
  destruct (Q.max_spec e1 e2) as [[H3 H4]|[H3 H4]];
  rewrite H2, H4; lra.
Qed.

Lemma Qmin_le_Qmax e1 e2 : Qmin e1 e2 <= Qmax e1 e2.
Proof.
  destruct (Q.min_spec e1 e2) as [[H1 H2]|[H1 H2]];
  destruct (Q.max_spec e1 e2) as [[H3 H4]|[H3 H4]];
  rewrite H2, H4; lra.
Qed.

Lemma in_range_iff e1 e2 x : in_range e1 e2 x = true <-> within e1 e2 x.
Proof.
  unfold in_range. rewrite andb_true_iff, !Qle_bool_iff.
  apply Qmin_max_within.
Qed.

Lemma ranges_overlap_iff u1 u2 v1 v2 :
  ranges_overlap u1 u2 v1 v2 = true <->
  exists x, within u1 u2 x /\ within v1 v2 x.
Proof.
  unfold ranges_overlap.
  rewrite negb_true_iff, orb_false_iff, <- !not_true_iff_false, !Qgt_bool_iff.
  split.
  - intros [A B].
    apply Qnot_lt_le in A. apply Qnot_lt_le in B.
    exists (Qmax (Qmin u1 u2) (Qmin v1 v2)).
    rewrite <- !Qmin_max_within.
    destruct (Q.max_spec (Qmin u1 u2) (Qmin v1 v2)) as [[L E]|[L E]]; rewrite E.
    + pose proof (Qmin_le_Qmax v1 v2). repeat split; lra.
    + pose proof (Qmin_le_Qmax u1 u2). repeat split; lra.
  - intros (x & Hu & Hv).
    apply Qmin_max_within in Hu. apply Qmin_max_within in Hv.
    split; apply Qle_not_lt; lra.
Qed.

(** ** Closed segments and their common points *)

Lemma share_point_sym a b c d : share_point a b c d -> share_point c d a b.
Proof. intros (p & H1 & H2). exists p. split; assumption. Qed.

Lemma within_param e1 e2 x :
  within e1 e2 x <-> exists t, 0 <= t /\ t <= 1 /\ x == e1 + t * (e2 - e1).
Proof.
  unfold within; split.
  - intros H. destruct (Qeq_dec e1 e2) as [E|E].
    + exists 0. lra.
    + exists ((x - e1) / (e2 - e1)).
      assert (D : ~ e2 - e1 == 0) by lra.
      assert (T : (x - e1) / (e2 - e1) * (e2 - e1) == x - e1) by (field; exact D).
      set (t := (x - e1) / (e2 - e1)) in *. clearbody t.
      assert (P0 : 0 <= t).
      { destruct (Qlt_le_dec t 0) as [L|L]; [exfalso|exact L].
        destruct H as [[A B]|[A B]].
        - assert (0 < e2 - e1) by lra. assert (t * (e2 - e1) < 0) by nra. lra.
        - assert (e2 - e1 < 0) by lra. assert (0 < t * (e2 - e1)) by nra. lra. }
      assert (P1 : t <= 1).
      { destruct (Qlt_le_dec 1 t) as [L|L]; [exfalso|exact L].
        destruct H as [[A B]|[A B]].
        - assert (0 < e2 - e1) by lra. assert (0 < (t - 1) * (e2 - e1)) by nra. lra.
        - assert (e2 - e1 < 0) by lra. assert ((t - 1) * (e2 - e1) < 0) by nra. lra. }
      repeat split; try assumption. lra.
  - intros (t & H0 & H1 & E).
    destruct (Qlt_le_dec e1 e2) as [L|L]; [left|right]; split; nra.
Qed.

Lemma within_Qeq e1 e2 x y : x == y -> within e1 e2 x -> within e1 e2 y.
Proof. unfold within. intros E H. lra. Qed.

(** A vertical segment (a single point included). *)
Lemma on_segment_vertical px py ax ay bx by_ :
  ax == bx ->
  on_segment (px, py) (ax, ay) (bx, by_) <-> px == ax /\ within ay by_ py.
Proof.
  intros V. unfold on_segment; simpl. rewrite within_param. split.
  - intros (t & T0 & T1 & X & Y). split.
    + rewrite X, <- V. ring.
    + exists t. auto.
  - intros (X & t & T0 & T1 & Y). exists t. repeat split; auto.
    rewrite X, <- V. ring.
Qed.

(** A segment that is not vertical, on the line [y = m x + k]. *)
Lemma on_segment_slanted px py ax ay bx by_ m k :
  ~ ax == bx ->
  m * (bx - ax) == by_ - ay ->
  k * (bx - ax) == ay * bx - by_ * ax ->
  on_segment (px, py) (ax, ay) (bx, by_) <->
  within ax bx px /\ py == m * px + k.
Proof.
  intros NV Hm Hk.
  assert (D : ~ bx - ax == 0) by lra.
  unfold on_segment; simpl. rewrite within_param. split.
  - intros (t & T0 & T1 & X & Y). split.
    + exists t. auto.
    + apply (Qmult_inj_r _ _ (bx - ax) D).
      transitivity (px * (m * (bx - ax)) + k * (bx - ax)); [|ring].
      rewrite Hm, Hk, X, Y. ring.
  - intros ((t & T0 & T1 & X) & Y). exists t. repeat split; auto.
    apply (Qmult_inj_r _ _ (bx - ax) D).
    rewrite Y.
    transitivity (px * (m * (bx - ax)) + k * (bx - ax)); [ring|].
    rewrite Hm, Hk, X. ring.
Qed.

Lemma Qdiv_defining n d : ~ d == 0 -> n / d * d == n.
Proof. intros D. field. exact D. Qed.

Lemma divide_ok s n d : ~ d == 0 -> divide s n d = Ret (n / d).
Proof.
  intros D. unfold divide.
  destruct (Qeq_bool d 0) eqn:E; [|reflexivity].
  apply Qeq_bool_iff in E. contradiction.
Qed.

(** ** The intersection test decides whether two segments meet *)

Section IntersectingCases.

Variables x0_start y0_start x0_end y0_end : Q.
Variables x1_start y1_start x1_end y1_end : Q.

(** Both segments vertical, on the same vertical line. *)
Lemma both_vertical_same :
  x0_start == x0_end -> x1_start == x1_end -> x0_end == x1_start ->
  ranges_overlap y0_start y0_end y1_start y1_end = true <->
  share_point (x0_start, y0_start) (x0_end, y0_end)
                (x1_start, y1_start) (x1_end, y1_end).
Proof.
  intros V0 V1 S. rewrite ranges_overlap_iff. unfold share_point. split.
  - intros (y & H0 & H1). exists (x0_start, y).
    split; (apply on_segment_vertical; [assumption|split; [lra|assumption]]).
  - intros ([px py] & H0 & H1).
    apply on_segment_vertical in H0; [|assumption].
    apply on_segment_vertical in H1; [|assumption].
    exists py. tauto.
Qed.

(** Both segments vertical, on different vertical lines. *)
Lemma both_vertical_apart :
  x0_start == x0_end -> x1_start == x1_end -> ~ x0_end == x1_start ->
  ~ share_point (x0_start, y0_start) (x0_end, y0_end)
                  (x1_start, y1_start) (x1_end, y1_end).
Proof.
  intros V0 V1 S ([px py] & H0 & H1).
  apply on_segment_vertical in H0; [|assumption].
  apply on_segment_vertical in H1; [|assumption].
  lra.
Qed.

(** Segment 0 vertical, segment 1 on the line [y = m x + k]. *)
Lemma vertical_meets_slanted m k :
  x0_start == x0_end -> ~ x1_start == x1_end ->
  m * (x1_end - x1_start) == y1_end - y1_start ->
  k * (x1_end - x1_start) == x1_end * y1_start - x1_start * y1_end ->
  (within x1_start x1_end x0_start /\ within y0_start y0_end (m * x0_start + k))
  <->
  share_point (x0_start, y0_start) (x0_end, y0_end)
                (x1_start, y1_start) (x1_end, y1_end).
Proof.
  intros V0 NV1 Hm Hk.
  assert (Hk' : k * (x1_end - x1_start) == y1_start * x1_end - y1_end * x1_start)
    by (rewrite Hk; ring).
  unfold share_point. split.
  - intros [Hx Hy]. exists (x0_start, m * x0_start + k). split.
    + apply on_segment_vertical; auto. split; [reflexivity|assumption].
    + apply (on_segment_slanted _ _ _ _ _ _ m k); auto. split; [assumption|reflexivity].
  - intros ([px py] & H0 & H1).
    apply on_segment_vertical in H0; [|assumption].
    apply (on_segment_slanted _ _ _ _ _ _ m k) in H1; auto.
    destruct H0 as [X Y0]. destruct H1 as [X1 Y1]. split.
    + apply within_Qeq with px; assumption.
    + apply within_Qeq with py; [|assumption].
      rewrite Y1, X. reflexivity.
Qed.

(** Neither vertical, identical slopes and intercepts. *)
Lemma same_line m0 k0 m1 k1 :
  ~ x0_start == x0_end -> ~ x1_start == x1_end ->
  m0 * (x0_end - x0_start) == y0_end - y0_start ->
  k0 * (x0_end - x0_start) == y0_start * x0_end - y0_end * x0_start ->
  m1 * (x1_end - x1_start) == y1_end - y1_start ->
  k1 * (x1_end - x1_start) == y1_start * x1_end - y1_end * x1_start ->
  m0 == m1 -> k0 == k1 ->
  ranges_overlap x0_start x0_end x1_start x1_end = true <->
  share_point (x0_start, y0_start) (x0_end, y0_end)
                (x1_start, y1_start) (x1_end, y1_end).
Proof.
  intros NV0 NV1 Hm0 Hk0 Hm1 Hk1 Em Ek.
  rewrite ranges_overlap_iff. unfold share_point. split.
  - intros (x & H0 & H1). exists (x, m0 * x + k0). split.
    + apply (on_segment_slanted _ _ _ _ _ _ m0 k0); auto. split; [assumption|reflexivity].
    + apply (on_segment_slanted _ _ _ _ _ _ m1 k1); auto. split; [assumption|].
      rewrite Em, Ek. reflexivity.
  - intros ([px py] & H0 & H1).
    apply (on_segment_slanted _ _ _ _ _ _ m0 k0) in H0; auto.
    apply (on_segment_slanted _ _ _ _ _ _ m1 k1) in H1; auto.
    exists px. tauto.
Qed.

(** Neither vertical, identical slopes, different intercepts. *)
Lemma parallel_apart m0 k0 m1 k1 :
  ~ x0_start == x0_end -> ~ x1_start == x1_end ->
  m0 * (x0_end - x0_start) == y0_end - y0_start ->
  k0 * (x0_end - x0_start) == y0_start * x0_end - y0_end * x0_start ->
  m1 * (x1_end - x1_start) == y1_end - y1_start ->
  k1 * (x1_end - x1_start) == y1_start * x1_end - y1_end * x1_start ->
  m0 == m1 -> ~ k0 == k1 ->
  ~ share_point (x0_start, y0_start) (x0_end, y0_end)
                  (x1_start, y1_start) (x1_end, y1_end).
Proof.
  intros NV0 NV1 Hm0 Hk0 Hm1 Hk1 Em Ek ([px py] & H0 & H1).
  apply (on_segment_slanted _ _ _ _ _ _ m0 k0) in H0; auto.
  apply (on_segment_slanted _ _ _ _ _ _ m1 k1) in H1; auto.
  destruct H0 as [_ Y0]. destruct H1 as [_ Y1].
  apply Ek. rewrite Y0, Em in Y1. lra.
Qed.

(** Neither vertical, different slopes: the lines cross at [xi]. *)
Lemma crossing_lines m0 k0 m1 k1 xi :
  ~ x0_start == x0_end -> ~ x1_start == x1_end ->
  m0 * (x0_end - x0_start) == y0_end - y0_start ->
  k0 * (x0_end - x0_start) == y0_start * x0_end - y0_end * x0_start ->
  m1 * (x1_end - x1_start) == y1_end - y1_start ->
  k1 * (x1_end - x1_start) == y1_start * x1_end - y1_end * x1_start ->
  ~ m0 - m1 == 0 -> xi * (m0 - m1) == k1 - k0 ->
  (within x0_start x0_end xi /\ within x1_start x1_end xi) <->
  share_point (x0_start, y0_start) (x0_end, y0_end)
                (x1_start, y1_start) (x1_end, y1_end).
Proof.
  intros NV0 NV1 Hm0 Hk0 Hm1 Hk1 Dm Hxi.
  unfold share_point. split.
  - intros [H0 H1]. exists (xi, m0 * xi + k0). split.
    + apply (on_segment_slanted _ _ _ _ _ _ m0 k0); auto. split; [assumption|reflexivity].
    + apply (on_segment_slanted _ _ _ _ _ _ m1 k1); auto. split; [assumption|].
      transitivity (xi * (m0 - m1) + m1 * xi + k0); [ring|].
      rewrite Hxi. ring.
  - intros ([px py] & H0 & H1).
    apply (on_segment_slanted _ _ _ _ _ _ m0 k0) in H0; auto.
    apply (on_segment_slanted _ _ _ _ _ _ m1 k1) in H1; auto.
    destruct H0 as [X0 Y0]. destruct H1 as [X1 Y1].
    assert (E : px == xi).
    { apply (Qmult_inj_r _ _ (m0 - m1) Dm). rewrite Hxi.
      rewrite Y0 in Y1.
      transitivity (m0 * px + k0 - (m0 * px + k0) + (px * (m0 - m1))); [ring|].
      rewrite Y1 at 1. ring. }
    split; apply within_Qeq with px; assumption.
Qed.

End IntersectingCases.

Lemma slopes_equal_iff dx0 dy0 dx1 dy1 m0 m1 :
  ~ dx0 == 0 -> ~ dx1 == 0 ->
  m0 * dx0 == dy0 -> m1 * dx1 == dy1 ->
  dx1 * dy0 == dx0 * dy1 <-> m0 == m1.
Proof.
  intros D0 D1 H0 H1. rewrite <- H0, <- H1. split.
  - intros E.
    apply (Qmult_inj_r _ _ dx0 D0). apply (Qmult_inj_r _ _ dx1 D1).
    transitivity (dx1 * (m0 * dx0)); [ring|]. rewrite E. ring.
  - intros E. rewrite E. ring.
Qed.

Lemma nested_tests (t1 t2 : bool) :
  (if t1 then if t2 then Ret true else Ret false else Ret false) = Ret (t1 && t2).
Proof. destruct t1, t2; reflexivity. Qed.

(** [intersecting] never faults, and it answers [True] exactly when the two
    closed segments have a common point. *)
Lemma intersecting_decides (a b c d : point) :
  exists r, intersecting a b c d = Ret r /\ (r = true <-> share_point a b c d).
Proof.
  destruct a as [x0s y0s], b as [x0e y0e], c as [x1s y1s], d as [x1e y1e].
  unfold intersecting.
  destruct (Qeq_bool x0s x0e) eqn:V0; destruct (Qeq_bool x1s x1e) eqn:V1; simpl.
  - (* two vertical lines *)
    apply Qeq_bool_iff in V0. apply Qeq_bool_iff in V1.
    destruct (Qeq_bool x0e x1s) eqn:S.
    + apply Qeq_bool_iff in S. eexists. split; [reflexivity|].
      apply both_vertical_same; assumption.
    + apply Qeq_bool_false_iff in S. exists false. split; [reflexivity|].
      split; [discriminate|]. intros H. exfalso.
      revert H. apply both_vertical_apart; assumption.
  - (* segment 0 vertical *)
    apply Qeq_bool_iff in V0. apply Qeq_bool_false_iff in V1.
    assert (D : ~ x1e - x1s == 0) by lra.
    rewrite !(divide_ok _ _ _ D). simpl. rewrite nested_tests.
    eexists. split; [reflexivity|].
    rewrite andb_true_iff, !in_range_iff.
    apply vertical_meets_slanted; auto using Qdiv_defining.
  - (* segment 1 vertical: the names are exchanged *)
    apply Qeq_bool_false_iff in V0. apply Qeq_bool_iff in V1.
    assert (D : ~ x0e - x0s == 0) by lra.
    rewrite !(divide_ok _ _ _ D). simpl. rewrite nested_tests.
    eexists. split; [reflexivity|].
    rewrite andb_true_iff, !in_range_iff.
    rewrite vertical_meets_slanted; eauto using Qdiv_defining.
    split; apply share_point_sym.
  - (* neither vertical *)
    apply Qeq_bool_false_iff in V0. apply Qeq_bool_false_iff in V1.
    assert (D0 : ~ x0e - x0s == 0) by lra.
    assert (D1 : ~ x1e - x1s == 0) by lra.
    rewrite (divide_ok _ _ _ D0), (divide_ok _ _ _ D1). simpl.
    pose proof (Qdiv_defining (y0e - y0s) _ D0) as Hm0.
    pose proof (Qdiv_defining (y1e - y1s) _ D1) as Hm1.
    pose proof (Qdiv_defining (y0s * x0e - y0e * x0s) _ D0) as Hk0.
    pose proof (Qdiv_defining (y1s * x1e - y1e * x1s) _ D1) as Hk1.
    pose proof (slopes_equal_iff _ _ _ _ _ _ D0 D1 Hm0 Hm1) as Slopes.
    destruct (Qeq_bool ((x1e - x1s) * (y0e - y0s)) ((x0e - x0s) * (y1e - y1s))) eqn:P.
    + apply Qeq_bool_iff, Slopes in P.
      destruct (Qeq_bool _ _) eqn:I.
      * apply Qeq_bool_iff in I. eexists. split; [reflexivity|].
        eapply same_line; eauto.
      * apply Qeq_bool_false_iff in I. exists false. split; [reflexivity|].
        split; [discriminate|]. intros H. exfalso.
        revert H. eapply parallel_apart; eauto.
    + apply Qeq_bool_false_iff in P. rewrite Slopes in P.
      assert (Dm : ~ (y0e - y0s) / (x0e - x0s) - (y1e - y1s) / (x1e - x1s) == 0) by lra.
      rewrite (divide_ok _ _ _ D0), (divide_ok _ _ _ D1). simpl.
      rewrite (divide_ok _ _ _ Dm). simpl. rewrite nested_tests.
      eexists. split; [reflexivity|].
      rewrite andb_true_iff, !in_range_iff.
      eapply crossing_lines; eauto using Qdiv_defining.
Qed.

Lemma intersecting_total (a b c d : point) :
  exists r, intersecting a b c d = Ret r.
Proof. destruct (intersecting_decides a b c d) as (r & H & _). eauto. Qed.

Lemma intersecting_true_iff (a b c d : point) :
  intersecting a b c d = Ret true <-> share_point a b c d.
Proof.
  destruct (intersecting_decides a b c d) as (r & E & H). rewrite E.
  rewrite <- H. split; [intros X; injection X; auto | intros ->; reflexivity].
Qed.





(** C9.  [intersecting(a, b, c, d)] equals [intersecting(c, d, a, b)]. *)
Theorem intersecting_symmetric (a b c d : point) :
  intersecting a b c d = intersecting c d a b.
Proof.
  destruct (intersecting_decides a b c d) as (r1 & E1 & H1).
  destruct (intersecting_decides c d a b) as (r2 & E2 & H2).
  rewrite E1, E2. f_equal.
  apply eq_true_iff_eq. rewrite H1, H2.
  split; apply share_point_sym.
Qed.




(** ** The obstruction checker tests the four sides of every box *)

Arguments intersecting a b c d : simpl never.

Lemma tested_segments_sides (bb : bounds) : tested_segments bb = sides bb.
Proof. destruct bb as [[[xmin ymin] xmax] ymax]. reflexivity. Qed.

Lemma any_intersecting_decides (sg : segment) (pairs : list segment) :
  exists r, any_intersecting sg pairs = Ret r /\
            (r = true <-> exists kl, In kl pairs /\ hits sg kl).
Proof.
  induction pairs as [|[k l] rest IH]; simpl.
  - exists false. split; [reflexivity|].
    split; [discriminate | intros (kl & [] & _)].
  - destruct (intersecting_total (fst sg) (snd sg) k l) as ([|] & E); rewrite E; simpl.
    + exists true. split; [reflexivity|]. split; [|reflexivity].
      intros _. exists (k, l). split; [left; reflexivity | exact E].
    + destruct IH as (r & Er & Hr). exists r. split; [exact Er|].
      rewrite Hr. split.
      * intros (kl & Hin & Hh). exists kl. split; [right|]; assumption.
      * intros (kl & [<-|Hin] & Hh).
        -- unfold hits in Hh; simpl in Hh. rewrite E in Hh. discriminate.
        -- exists kl. split; assumption.
Qed.

Lemma unobstructed_decides (components : list bounds) (sg : segment) :
  exists r, unobstructed components sg = Ret r /\
            (r = false <->
             exists bb side, In bb components /\ In side (sides bb) /\ hits sg side).
Proof.
  induction components as [|bb rest IH]; simpl.
  - exists true. split; [reflexivity|].
    split; [discriminate | intros (bb & side & [] & _)].
  - destruct (any_intersecting_decides sg (tested_segments bb)) as (h & E & Hh).
    rewrite E; simpl. rewrite tested_segments_sides in Hh. destruct h.
    + exists false. split; [reflexivity|]. split; [|reflexivity].
      intros _. destruct (proj1 Hh eq_refl) as (side & Hin & Hs).
      exists bb, side. auto.
    + destruct IH as (r & Er & Hr). exists r. split; [exact Er|].
      rewrite Hr. split.
      * intros (bb' & side & Hin & Hs). exists bb', side. tauto.
      * intros (bb' & side & [<-|Hin] & Hside & Hs).
        -- assert (X : false = true)
             by (apply (proj2 Hh); exists side; split; assumption).
           discriminate.
        -- exists bb', side. auto.
Qed.

Lemma unobstructed_total (components : list bounds) (sg : segment) :
  exists r, unobstructed components sg = Ret r.
Proof. destruct (unobstructed_decides components sg) as (r & E & _). eauto. Qed.

(** C4 as stated fails: a segment that reaches the left side of a box, and
    neither its top, its bottom nor a diagonal, is reported obstructed. *)
Lemma diagonal_tests_refuted :
  ~ (unobstructed [(0, 0, 2, 2)] ((-1, 1 # 2), (0, 1 # 2)) = Ret false <->
     exists bb kl, In bb [(0, 0, 2, 2)] /\ In kl (spec_tested_segments bb) /\
                   hits ((-1, 1 # 2), (0, 1 # 2)) kl).
Proof.
  intros [H _]. destruct (H eq_refl) as (bb & kl & Hbb & Hkl & Hh).
  destruct Hbb as [<-|[]]. simpl in Hkl.
  destruct Hkl as [<-|[<-|[<-|[<-|[]]]]]; vm_compute in Hh; discriminate.
Qed.

(** C4, amended.  [unobstructed(segment)] returns [False] exactly when some
    registered obstacle's bounding box has one of its four sides (left,
    bottom, right, top) intersecting the segment, and [True] exactly when no
    side of any box intersects it. *)
Theorem unobstructed_four_sides (components : list bounds) (sg : segment) :
  (unobstructed components sg = Ret false <->
   exists bb side, In bb components /\ In side (sides bb) /\ hits sg side) /\
  (unobstructed components sg = Ret true <->
   forall bb side, In bb components -> In side (sides bb) -> ~ hits sg side).
Proof.
  destruct (unobstructed_decides components sg) as (r & E & H). rewrite E.
  split.
  - rewrite <- H. split; [intros X; injection X; auto | intros ->; reflexivity].
  - split.
    + intros X bb side Hbb Hside Hh. injection X as ->.
      assert (Y : true = false)
        by (apply (proj2 H); exists bb, side; repeat split; assumption).
      discriminate.
    + intros X. destruct r; [reflexivity|].
      destruct (proj1 H eq_refl) as (bb & side & Hbb & Hside & Hh).
      exfalso. exact (X bb side Hbb Hside Hh).
Qed.







(** ** The leg planner *)

Lemma and_then_total (x y : outcome bool) :
  (exists r, x = Ret r) -> (exists r, y = Ret r) -> exists r, and_then x y = Ret r.
Proof.
  intros (rx & ->) (ry & ->). unfold and_then; simpl.
  destruct rx; eauto.
Qed.

Lemma clear2_total (components : list bounds) (ac : bool) (s1 s2 : segment) :
  exists r,
    (if ac then and_then (unobstructed components s1) (unobstructed components s2)
     else Ret true) = Ret r.
Proof.
  destruct ac; [|eauto].
  apply and_then_total; apply unobstructed_total.
Qed.

Lemma clear3_total (components : list bounds) (ac : bool) (s1 s2 s3 : segment) :
  exists r,
    (if ac then and_then (unobstructed components s1)
                 (and_then (unobstructed components s2) (unobstructed components s3))
     else Ret true) = Ret r.
Proof.
  destruct ac; [|eauto].
  repeat apply and_then_total; apply unobstructed_total.
Qed.

Lemma first_success_shape (Q : list point -> Prop)
    (s : outcome (option (list point))) (k : outcome (list point)) :
  (exists r, s = Ret r /\ forall l, r = Some l -> Q l) ->
  (exists l, k = Ret l /\ (l = [] \/ Q l)) ->
  exists l, (first_success s otherwise k) = Ret l /\ (l = [] \/ Q l).
Proof.
  intros (r & -> & Hr) Hk. simpl. destruct r as [l|]; [|exact Hk].
  exists l. split; [reflexivity|]. right. apply Hr. reflexivity.
Qed.

Lemma joins_2 (s e : point) : joins s e [s; e].
Proof. exists []. reflexivity. Qed.

Lemma joins_3 (s c e : point) : joins s e [s; c; e].
Proof. exists [c]. reflexivity. Qed.

Lemma joins_4 (s c c' e : point) : joins s e [s; c; c'; e].
Proof. exists [c; c']. reflexivity. Qed.

Create HintDb legs.
#[local] Hint Resolve joins_2 joins_3 joins_4 : legs.

Ltac clear_flag2 components ac :=
  match goal with
  | |- context [if ac then and_then (unobstructed _ ?s1) (unobstructed _ ?s2) else _] =>
      let c := fresh "clear" in
      let E := fresh "E" in
      destruct (clear2_total components ac s1 s2) as (c & E);
      rewrite E; clear E; cbn [bind]
  end.

Ltac clear_flag3 components ac :=
  match goal with
  | |- context [if ac then and_then (unobstructed _ ?s1)
                             (and_then (unobstructed _ ?s2) (unobstructed _ ?s3))
                else _] =>
      let c := fresh "clear" in
      let E := fresh "E" in
      destruct (clear3_total components ac s1 s2 s3) as (c & E);
      rewrite E; clear E; cbn [bind]
  end.

Ltac settle_stage :=
  simpl;
  repeat (match goal with
          | |- context [if ?c then _ else _] => destruct c
          end; simpl);
  eexists; (split; [reflexivity|]);
  let l := fresh "l" in let X := fresh "X" in
  intros l X; inversion X; subst; auto with legs.

(** With a start direction, [connect_simple] returns, and what it returns is
    the empty list or a vertex list from the start to the end. *)
Lemma connect_simple_shape (components : list bounds) (ac : bool)
    (start_pt end_pt : QRoutePoint) :
  direction start_pt <> None ->
  exists l, connect_simple components ac start_pt end_pt = Ret l /\
            (l = [] \/ joins (position start_pt) (position end_pt) l).
Proof.
  destruct start_pt as [start [sd|]]; [intros _|intros H; contradiction H; reflexivity].
  destruct end_pt as [end_ ed].
  unfold connect_simple; cbv zeta; simpl position; simpl direction.
  destruct (Qeq_bool (fst start) (fst end_) || Qeq_bool (snd start) (snd end_)).
  - simpl.
    destruct (Qge_bool _ _); [|eauto].
    destruct (none_or _ _); eauto with legs.
  - clear_flag2 components ac. clear_flag2 components ac.
    cbn [bind].
    apply first_success_shape; [settle_stage|].
    destruct (negb _); cbv iota beta;
      clear_flag3 components ac; clear_flag3 components ac;
      repeat (apply first_success_shape; [settle_stage|]);
      eauto.
Qed.

Lemma connect_simple_undirected (components : list bounds) (ac : bool)
    (start_pt end_pt : QRoutePoint) :
  direction start_pt = None ->
  connect_simple components ac start_pt end_pt = Raise TypeError.
Proof.
  destruct start_pt as [start sd]; simpl. intros ->.
  destruct end_pt as [end_ ed].
  unfold connect_simple; cbv zeta; simpl position; simpl direction.
  destruct (Qeq_bool (fst start) (fst end_) || Qeq_bool (snd start) (snd end_)).
  - reflexivity.
  - clear_flag2 components ac. clear_flag2 components ac. reflexivity.
Qed.

Lemma joins_ends (s e : point) (l : list point) :
  joins s e l -> hd_error l = Some s /\ forall d, last l d = e.
Proof.
  intros (middle & ->). split; [reflexivity|].
  intros d. change (s :: middle ++ [e]) with ((s :: middle) ++ [e]).
  apply last_last.
Qed.

(** C7.  Whenever [connect_simple] returns a non-empty vertex list, its
    first element is [start.position] and its last element is
    [end.position]; and it does return whenever the start point has a
    direction. *)
Theorem connect_simple_endpoints (components : list bounds) (ac : bool)
    (start_pt end_pt : QRoutePoint) :
  (direction start_pt <> None ->
   exists l, connect_simple components ac start_pt end_pt = Ret l) /\
  (forall l, connect_simple components ac start_pt end_pt = Ret l ->
             l <> [] ->
             hd_error l = Some (position start_pt) /\
             forall d, last l d = position end_pt).
Proof.
  split.
  - intros Hd.
    destruct (connect_simple_shape components ac start_pt end_pt Hd) as (l & E & _).
    eauto.
  - intros l El Hl.
    destruct (direction start_pt) as [sd|] eqn:Hd.
    + assert (Hd' : direction start_pt <> None) by (rewrite Hd; discriminate).
      destruct (connect_simple_shape components ac start_pt end_pt Hd')
        as (l' & E & [->|J]); rewrite E in El; injection El as <-.
      * contradiction Hl; reflexivity.
      * apply joins_ends. exact J.
    + rewrite (connect_simple_undirected _ _ _ _ Hd) in El. discriminate.
Qed.

Lemma connect_simple_endpoints_witness :
  hd_error [(0, 0); (5, 0); (5, 5)] = Some (0, 0) /\
  forall d, last [(0, 0); (5, 0); (5, 5)] d = (5, 5).
Proof.
  apply (proj2 (connect_simple_endpoints [] false
                  (mkQRoutePoint (0, 0) (Some (1, 0)))
                  (mkQRoutePoint (5, 5) (Some (0, -1))))).
  - reflexivity.
  - discriminate.
Defined.

(** C2 as stated fails: with an end direction whose dot product with
    [end - start] is strictly positive, the collinear leg is refused. *)
Lemma collinear_strict_end_refuted :
  ~ (snd (0, 0) == snd (5, 0) ->
     0 < dot (1, 0) (vsub (5, 0) (0, 0)) ->
     0 < dot (vsub (5, 0) (0, 0)) (1, 0) ->
     connect_simple [] false (mkQRoutePoint (0, 0) (Some (1, 0)))
                             (mkQRoutePoint (5, 0) (Some (1, 0)))
     = Ret [(0, 0); (5, 0)]).
Proof.
  intros H.
  assert (X : connect_simple [] false (mkQRoutePoint (0, 0) (Some (1, 0)))
                (mkQRoutePoint (5, 0) (Some (1, 0))) = Ret [(0, 0); (5, 0)]).
  { apply H; [reflexivity | reflexivity | reflexivity]. }
  vm_compute in X. discriminate.
Qed.

(** C2, amended.  For every start and end that share an x or y coordinate,
    if [dot(start.direction, end - start) >= 0] (in particular when it is
    strictly positive) and, when [end.direction] is present,
    [dot(end - start, end.direction) <= 0], then [connect_simple] returns
    the 2-point path [[start, end]], whatever the obstacles. *)
Theorem collinear_direct (components : list bounds) (ac : bool)
    (start_pt end_pt : QRoutePoint) (sd : point) :
  direction start_pt = Some sd ->
  fst (position start_pt) == fst (position end_pt) \/
  snd (position start_pt) == snd (position end_pt) ->
  0 <= dot sd (vsub (position end_pt) (position start_pt)) ->
  (forall ed, direction end_pt = Some ed ->
              dot (vsub (position end_pt) (position start_pt)) ed <= 0) ->
  connect_simple components ac start_pt end_pt
  = Ret [position start_pt; position end_pt].
Proof.
  destruct start_pt as [start sd']; destruct end_pt as [end_ ed]; simpl.
  intros -> Hc Hs He.
  unfold connect_simple; cbv zeta; simpl position; simpl direction.
  assert (C : Qeq_bool (fst start) (fst end_) || Qeq_bool (snd start) (snd end_) = true).
  { apply orb_true_iff. rewrite !Qeq_bool_iff. exact Hc. }
  rewrite C. simpl.
  apply Qge_bool_iff in Hs. rewrite Hs.
  destruct ed as [ed|]; simpl; [|reflexivity].
  rewrite (proj2 (Qle_bool_iff _ _) (He ed eq_refl)). reflexivity.
Qed.

Lemma collinear_direct_witness :
  connect_simple [(4, -1, 6, 1)] true
    (mkQRoutePoint (0, 0) (Some (1, 0))) (mkQRoutePoint (5, 0) (Some (-1, 0)))
  = Ret [(0, 0); (5, 0)].
Proof.
  apply (collinear_direct [(4, -1, 6, 1)] true
           (mkQRoutePoint (0, 0) (Some (1, 0)))
           (mkQRoutePoint (5, 0) (Some (-1, 0))) (1, 0)).
  - reflexivity.
  - right. reflexivity.
  - vm_compute. discriminate.
  - intros ed E. injection E as <-. vm_compute. discriminate.
Defined.

(** C1, at the failing input.  With [avoid_collision] set and an obstacle
    whose box straddles the corridor from (0,0) to (10,0), the direct
    segment is obstructed (it crosses the box), and [connect_simple] returns
    the direct 2-point path all the same.  The collinear branch never
    consults [unobstructed]: for endpoints with the same y, or the same x,
    the result is the one without obstacles and without [avoid_collision]. *)
Theorem straight_leg_ignores_obstacles :
  (4 < 6 /\ 0 < 4 /\ 6 < 10 /\ -1 < 0 /\ 0 < 1) /\
  unobstructed [(4, -1, 6, 1)] ((0, 0), (10, 0)) = Ret false /\
  connect_simple [(4, -1, 6, 1)] true
    (mkQRoutePoint (0, 0) (Some (1, 0))) (mkQRoutePoint (10, 0) None)
  = Ret [(0, 0); (10, 0)] /\
  (forall components ac x0 x1 y sd ed,
     connect_simple components ac (mkQRoutePoint (x0, y) sd) (mkQRoutePoint (x1, y) ed)
     = connect_simple [] false (mkQRoutePoint (x0, y) sd) (mkQRoutePoint (x1, y) ed)) /\
  (forall components ac x y0 y1 sd ed,
     connect_simple components ac (mkQRoutePoint (x, y0) sd) (mkQRoutePoint (x, y1) ed)
     = connect_simple [] false (mkQRoutePoint (x, y0) sd) (mkQRoutePoint (x, y1) ed)).
Proof.
  split; [repeat split; reflexivity|].
  split; [reflexivity|]. split; [reflexivity|]. split.
  - intros components ac x0 x1 y sd ed.
    unfold connect_simple; cbv zeta; simpl position.
    cbn [fst snd]. rewrite (Qeq_bool_refl y), orb_true_r. reflexivity.
  - intros components ac x y0 y1 sd ed.
    unfold connect_simple; cbv zeta; simpl position.
    cbn [fst snd]. rewrite (Qeq_bool_refl x). reflexivity.
Qed.

(** C3, at the failing input.  Start (0,0) with direction (1,1), end (1,1)
    with direction (0,-1): the perfect L via corner1 = (0,1) does not
    succeed (its end test is not strict), every condition of the perfect L
    via corner2 = (1,0) holds, and [connect_simple] returns the path through
    corner1, taken by the relaxed pass, because the [elif] skips corner2
    once corner1's start test has passed. *)
Theorem perfect_corner2_skipped :
  let start_pt := mkQRoutePoint (0, 0) (Some (1, 1)) in
  let end_pt := mkQRoutePoint (1, 1) (Some (0, -1)) in
  let corner1 : point := (0, 1) in
  let corner2 : point := (1, 0) in
  0 < dot (1, 1) (vsub corner1 (0, 0)) /\
  ~ 0 < dot (0, -1) (vsub corner1 (1, 1)) /\
  0 < dot (1, 1) (vsub corner2 (0, 0)) /\
  0 < dot (0, -1) (vsub corner2 (1, 1)) /\
  connect_simple [] false start_pt end_pt = Ret [(0, 0); corner1; (1, 1)].
Proof.
  cbv zeta. repeat split; try reflexivity.
  vm_compute. discriminate.
Qed.

(** ** The orchestrator *)

Section MakeProperties.

Variable components : list bounds.
Variable avoid_collision : bool.
Variable meander_start_point : QRoutePoint.
Variable get_tip : option (list point) -> QRoutePoint.

Hypothesis start_directed : direction meander_start_point <> None.
Hypothesis tip_directed : forall pts, direction (get_tip pts) <> None.

Lemma plan_returns (st : route) (from to : QRoutePoint) :
  direction from <> None ->
  exists leg,
    plan components avoid_collision st from to
    = Ret (leg, mkRoute (intermediate_pts st) (calls st ++ [mkLegCall from to leg])) /\
    genuine components avoid_collision (mkLegCall from to leg).
Proof.
  intros Hd.
  destruct (connect_simple_shape components avoid_collision from to Hd) as (leg & E & S).
  exists leg. unfold plan. rewrite E. simpl. split; [reflexivity|].
  split; assumption.
Qed.

Lemma concat_contribution_snoc (cs : list leg_call) (c : leg_call) :
  concat (map contribution (cs ++ [c]))
  = concat (map contribution cs) ++ contribution c.
Proof. rewrite map_app, concat_app. simpl. rewrite app_nil_r. reflexivity. Qed.

Lemma hd_error_snoc {A : Type} (l : list A) (x y : A) :
  hd_error l = Some x -> hd_error (l ++ [y]) = Some x.
Proof. destruct l; simpl; [discriminate | auto]. Qed.

Lemma anchor_step_accumulates (st : route) (coord : point) :
  accumulated components avoid_collision meander_start_point st ->
  exists st' c,
    anchor_step components avoid_collision meander_start_point get_tip st coord = Ret st' /\
    calls st' = calls st ++ [c] /\
    leg_end c = anchor_point coord /\
    intermediate_pts st' = Some (concat (map contribution (calls st'))) /\
    accumulated components avoid_collision meander_start_point st'.
Proof.
  intros [Hg Hacc]. unfold anchor_step.
  change (mkQRoutePoint coord None) with (anchor_point coord).
  assert (Fresh : forall from leg,
    genuine components avoid_collision (mkLegCall from (anchor_point coord) leg) ->
    (calls st = [] -> from = meander_start_point) ->
    forall pts', pts' = concat (map contribution (calls st)) ++ tl leg ->
    exists st' c,
      Ret (mkRoute (Some pts') (calls st ++ [mkLegCall from (anchor_point coord) leg]))
      = Ret st' /\
      calls st' = calls st ++ [c] /\ leg_end c = anchor_point coord /\
      intermediate_pts st' = Some (concat (map contribution (calls st'))) /\
      accumulated components avoid_collision meander_start_point st').
  { intros from leg G Hfrom pts' ->. eexists. eexists.
    split; [reflexivity|]. simpl.
    split; [reflexivity|]. split; [reflexivity|].
    rewrite concat_contribution_snoc.
    split; [reflexivity|]. split.
    - apply Forall_app. split; [assumption|]. constructor; [assumption|constructor].
    - right. simpl. rewrite concat_contribution_snoc. split; [reflexivity|].
      rewrite map_app.
      destruct Hacc as [[_ Hc]|[_ Hh]].
      + rewrite Hc. simpl. f_equal. apply Hfrom. exact Hc.
      + apply hd_error_snoc. exact Hh. }
  destruct (intermediate_pts st) as [[|p pts]|] eqn:Hpts.
  - destruct (plan_returns st meander_start_point (anchor_point coord) start_directed)
      as (leg & -> & G).
    simpl. apply Fresh; auto.
    destruct Hacc as [[X _]|[X _]]; [discriminate|].
    injection X as <-. reflexivity.
  - destruct (plan_returns st (get_tip (Some (p :: pts))) (anchor_point coord)
                (tip_directed _)) as (leg & -> & G).
    simpl. apply Fresh; auto.
    + intros Hc. destruct Hacc as [[X _]|[X _]]; [discriminate|].
      rewrite Hc in X. discriminate.
    + destruct Hacc as [[X _]|[X _]]; [discriminate|].
      injection X as <-. reflexivity.
  - destruct (plan_returns st meander_start_point (anchor_point coord) start_directed)
      as (leg & -> & G).
    simpl. apply Fresh; auto.
    destruct Hacc as [[_ X]|[X _]]; [|discriminate].
    rewrite X. reflexivity.
Qed.

Lemma anchor_loop_accumulates (coords : list point) :
  forall st, accumulated components avoid_collision meander_start_point st ->
  exists st',
    anchor_loop components avoid_collision meander_start_point get_tip st coords = Ret st' /\
    map leg_end (calls st') = map leg_end (calls st) ++ map anchor_point coords /\
    (coords <> [] ->
     intermediate_pts st' = Some (concat (map contribution (calls st')))) /\
    (coords = [] -> st' = st) /\
    accumulated components avoid_collision meander_start_point st'.
Proof.
  induction coords as [|coord rest IH]; intros st Hacc; simpl.
  - exists st. rewrite app_nil_r.
    split; [reflexivity|]. split; [reflexivity|].
    split; [intros X; contradiction X; reflexivity|]. split; [reflexivity|assumption].
  - destruct (anchor_step_accumulates st coord Hacc) as (st1 & c & -> & Hc & He & Hp & Hacc1).
    simpl.
    destruct (IH st1 Hacc1) as (st' & -> & Hends & Hp' & Hnil & Hacc').
    exists st'. split; [reflexivity|]. split; [|split; [|split]].
    + rewrite Hends, Hc, map_app. simpl. rewrite He, <- app_assoc. reflexivity.
    + intros _. destruct rest as [|coord' rest'].
      * rewrite (Hnil eq_refl). exact Hp.
      * apply Hp'. discriminate.
    + discriminate.
    + exact Hacc'.
Qed.

End MakeProperties.

Lemma length_concat_sum {A : Type} (ls : list (list A)) :
  length (concat ls) = list_sum (map (@length A) ls).
Proof.
  induction ls as [|l ls IH]; simpl; [reflexivity|].
  rewrite length_app, IH. reflexivity.
Qed.

Lemma accumulated_initial (components : list bounds) (ac : bool) (ms : QRoutePoint) :
  accumulated components ac ms (mkRoute None []).
Proof. split; [constructor|]. left. split; reflexivity. Qed.

(** C6 as stated fails: when the final leg cannot be planned,
    [connect_simple] returns the empty list, nothing is appended, and the
    path does not reach the overall end. *)
Lemma make_end_refuted :
  exists r,
    make (K := nat) [] false
      (mkQRoutePoint (0, 0) (Some (-1, 0))) (mkQRoutePoint (5, 0) None)
      (tip_of (mkQRoutePoint (0, 0) (Some (-1, 0)))) [] = Ret r /\
    intermediate_pts r = Some [] /\
    ~ fst (last (finished_path (mkQRoutePoint (0, 0) (Some (-1, 0))) r) (0, 0)) == 5.
Proof.
  eexists. split; [reflexivity|]. split; [reflexivity|].
  vm_compute. discriminate.
Qed.

(** C6, amended.  For an anchor list of length N, [make] issues exactly N+1
    calls of [connect_simple]: one per anchor in the supplied order, ending
    at that anchor, then one final leg ending at the lead-out point; with
    anchors, the first call starts from the lead-in point.  The accumulated
    path is the concatenation of each leg's vertex list with its first
    vertex dropped, so its vertex count is the sum of the per-leg
    contributions.  Preceded by the lead-in point it starts at the overall
    start, and its last vertex is the overall end whenever the final leg is
    not empty. *)
Theorem make_legs (K : Type) (components : list bounds) (avoid_collision : bool)
    (meander_start_point meander_end_point : QRoutePoint)
    (get_tip : option (list point) -> QRoutePoint) (anchors : list (K * point)) :
  direction meander_start_point <> None ->
  (forall pts, direction (get_tip pts) <> None) ->
  exists r final,
    make components avoid_collision meander_start_point meander_end_point
         get_tip anchors = Ret r /\
    length (calls r) = S (length anchors) /\
    map leg_end (calls r)
    = map (fun kp => anchor_point (snd kp)) anchors ++ [meander_end_point] /\
    hd_error (map leg_start (calls r))
    = Some (match anchors with
            | [] => get_tip None
            | _ :: _ => meander_start_point
            end) /\
    Forall (genuine components avoid_collision) (calls r) /\
    intermediate_pts r = Some (concat (map contribution (calls r))) /\
    length (concat (map contribution (calls r)))
    = list_sum (map (fun c => length (contribution c)) (calls r)) /\
    hd_error (finished_path meander_start_point r)
    = Some (position meander_start_point) /\
    last (calls r) final = final /\
    leg_end final = meander_end_point /\
    (leg_vertices final <> [] ->
     forall d, last (finished_path meander_start_point r) d
               = position meander_end_point).
Proof.
  intros Hs Ht. unfold make.
  destruct (anchor_loop_accumulates components avoid_collision meander_start_point
              get_tip Hs Ht (map snd anchors) _
              (accumulated_initial components avoid_collision meander_start_point))
    as (st & -> & Hends & Hp & Hnil & Hacc).
  cbn [bind].
  destruct (plan_returns components avoid_collision st
              (get_tip (intermediate_pts st)) meander_end_point (Ht _))
    as (leg & -> & G).
  cbn [bind].
  set (final := mkLegCall (get_tip (intermediate_pts st)) meander_end_point leg) in *.
  exists (mkRoute (Some (concat (map contribution (calls st)) ++ tl leg))
                  (calls st ++ [final])), final.
  simpl in Hends.
  assert (Hlen : length (calls st) = length anchors).
  { apply (f_equal (@length _)) in Hends. rewrite !length_map in Hends. exact Hends. }
  split; [|split; [|split; [|split; [|split; [|split; [|split; [|split; [|split]]]]]]]].
  - f_equal. simpl.
    destruct Hacc as [_ [[Hi Hc]|[Hi _]]]; rewrite Hi.
    + rewrite Hc. reflexivity.
    + destruct (concat (map contribution (calls st))); reflexivity.
  - simpl. rewrite length_app, Hlen. simpl. lia.
  - simpl. rewrite map_app, Hends, map_map. reflexivity.
  - simpl. rewrite map_app. destruct anchors as [|kp anchors'].
    + pose proof (Hnil eq_refl) as X. subst st. reflexivity.
    + apply hd_error_snoc.
      destruct Hacc as [_ [[Hi _]|[_ Hh]]]; [|exact Hh].
      rewrite Hp in Hi; discriminate.
  - simpl. apply Forall_app. split; [apply Hacc|].
    constructor; [exact G|constructor].
  - simpl. rewrite concat_contribution_snoc. reflexivity.
  - rewrite length_concat_sum, map_map. reflexivity.
  - reflexivity.
  - simpl. apply last_last.
  - split; [reflexivity|].
    intros Hleg d. destruct G as [_ [E|(middle & E)]]; [contradiction|].
    change (leg_vertices final) with leg in E.
    unfold finished_path. simpl intermediate_pts. rewrite E. simpl tl.
    rewrite app_assoc, app_comm_cons. apply last_last.
Qed.

Lemma make_legs_witness :
  exists r,
    make [] false (mkQRoutePoint (0, 0) (Some (1, 0)))
      (mkQRoutePoint (5, 5) (Some (0, -1)))
      (tip_of (mkQRoutePoint (0, 0) (Some (1, 0))))
      [(1%nat, (2, 0)); (2%nat, (2, 3))] = Ret r /\
    length (calls r) = 3%nat /\
    intermediate_pts r = Some (concat (map contribution (calls r))).
Proof.
  destruct (make_legs nat [] false (mkQRoutePoint (0, 0) (Some (1, 0)))
              (mkQRoutePoint (5, 5) (Some (0, -1)))
              (tip_of (mkQRoutePoint (0, 0) (Some (1, 0))))
              [(1%nat, (2, 0)); (2%nat, (2, 3))])
    as (r & final & Hr & Hn & _ & _ & _ & Hp & _).
  - simpl. discriminate.
  - intros [[|p rest]|]; simpl; discriminate.
  - exists r. split; [exact Hr|]. split; [exact Hn|exact Hp].
Defined.

(** * Further properties of the intersection test *)

Lemma on_segment_reverse (p a b : point) : on_segment p a b -> on_segment p b a.
Proof.
  intros (t & T0 & T1 & X & Y). exists (1 - t).
  repeat split; lra.
Qed.

Lemma share_point_reverse_l (a b c d : point) :
  share_point a b c d <-> share_point b a c d.
Proof.
  split; intros (p & H1 & H2); exists p; split; auto using on_segment_reverse.
Qed.

Lemma share_point_reverse_r (a b c d : point) :
  share_point a b c d <-> share_point a b d c.
Proof.
  split; intros (p & H1 & H2); exists p; split; auto using on_segment_reverse.
Qed.

Lemma intersecting_same_answer (a b c d a' b' c' d' : point) :
  (share_point a b c d <-> share_point a' b' c' d') ->
  intersecting a b c d = intersecting a' b' c' d'.
Proof.
  intros H.
  destruct (intersecting_decides a b c d) as (r1 & E1 & H1).
  destruct (intersecting_decides a' b' c' d') as (r2 & E2 & H2).
  rewrite E1, E2. f_equal. apply eq_true_iff_eq. rewrite H1, H2. exact H.
Qed.

(** X1.  The segments are undirected: exchanging the two ends of either
    segment does not change the answer of [intersecting]. *)
Theorem intersecting_undirected (a b c d : point) :
  intersecting b a c d = intersecting a b c d /\
  intersecting a b d c = intersecting a b c d /\
  intersecting b a d c = intersecting a b c d.
Proof.
  repeat split; apply intersecting_same_answer.
  - symmetry. apply share_point_reverse_l.
  - symmetry. apply share_point_reverse_r.
  - rewrite <- share_point_reverse_l, <- share_point_reverse_r. reflexivity.
Qed.






(** * Further properties of the obstruction checker *)


Lemma unobstructed_true_iff (components : list bounds) (sg : segment) :
  unobstructed components sg = Ret true <->
  forall bb side, In bb components -> In side (sides bb) -> ~ hits sg side.
Proof.
  destruct (unobstructed_decides components sg) as (r & E & H). rewrite E. split.
  - intros X bb side Hbb Hside Hh. injection X as ->.
    assert (Y : true = false)
      by (apply (proj2 H); exists bb, side; repeat split; assumption).
    discriminate.
  - intros X. destruct r; [reflexivity|].
    destruct (proj1 H eq_refl) as (bb & side & Hbb & Hside & Hh).
    exfalso. exact (X bb side Hbb Hside Hh).
Qed.

Lemma unobstructed_same_answer (l1 l2 : list bounds) (s1 s2 : segment) :
  ((exists bb side, In bb l1 /\ In side (sides bb) /\ hits s1 side) <->
   (exists bb side, In bb l2 /\ In side (sides bb) /\ hits s2 side)) ->
  unobstructed l1 s1 = unobstructed l2 s2.
Proof.
  intros H.
  destruct (unobstructed_decides l1 s1) as (r1 & E1 & H1).
  destruct (unobstructed_decides l2 s2) as (r2 & E2 & H2).
  rewrite E1, E2. f_equal.
  destruct r1, r2; try reflexivity.
  - apply (proj2 H1), (proj2 H), (proj1 H2). reflexivity.
  - symmetry. apply (proj2 H2), (proj1 H), (proj1 H1). reflexivity.
Qed.

(** X4.  The answer of [unobstructed] depends on the set of registered
    boxes only, not on their order or multiplicity. *)
Theorem unobstructed_registry_as_set (l1 l2 : list bounds) (sg : segment) :
  (forall bb, In bb l1 <-> In bb l2) ->
  unobstructed l1 sg = unobstructed l2 sg.
Proof.
  intros H. apply unobstructed_same_answer.
  split; intros (bb & side & Hbb & Hs); exists bb, side;
    (split; [apply H; exact Hbb | exact Hs]).
Qed.

Lemma unobstructed_registry_as_set_witness :
  unobstructed [(0, 0, 1, 1); (4, 4, 6, 6)] ((3, 5), (5, 5))
  = unobstructed [(4, 4, 6, 6); (0, 0, 1, 1); (4, 4, 6, 6)] ((3, 5), (5, 5)).
Proof.
  apply unobstructed_registry_as_set.
  intros bb; simpl; tauto.
Defined.

(** X5.  A segment is unobstructed by two registries put together exactly
    when it is unobstructed by each of them. *)
Theorem unobstructed_app (l1 l2 : list bounds) (sg : segment) :
  unobstructed (l1 ++ l2) sg = Ret true <->
  unobstructed l1 sg = Ret true /\ unobstructed l2 sg = Ret true.
Proof.
  rewrite !unobstructed_true_iff. split.
  - intros H. split; intros bb side Hbb; apply H; apply in_or_app; auto.
  - intros [H1 H2] bb side Hbb. apply in_app_or in Hbb.
    destruct Hbb; [apply H1 | apply H2]; assumption.
Qed.

(** X6.  [unobstructed] does not depend on the direction of the segment. *)
Theorem unobstructed_undirected (components : list bounds) (a b : point) :
  unobstructed components (b, a) = unobstructed components (a, b).
Proof.
  apply unobstructed_same_answer.
  split; intros (bb & side & Hbb & Hside & Hh); exists bb, side;
    (split; [exact Hbb|split; [exact Hside|]]);
    unfold hits in *; simpl in *;
    apply intersecting_true_iff; apply intersecting_true_iff in Hh;
    apply share_point_reverse_l; exact Hh.
Qed.














(** * Further properties of the leg planner *)

Lemma and_then_decides (x y : outcome bool) (bx by_ : bool) :
  x = Ret bx -> y = Ret by_ -> and_then x y = Ret (bx && by_).
Proof. intros -> ->. destruct bx; reflexivity. Qed.

Lemma unobstructed_bool (components : list bounds) (sg : segment) :
  exists r, unobstructed components sg = Ret r /\
            (r = true <-> unobstructed components sg = Ret true).
Proof.
  destruct (unobstructed_total components sg) as (r & E). exists r.
  split; [exact E|]. rewrite E.
  split; [intros ->; reflexivity | intros X; injection X; auto].
Qed.

(** The collision flag of a candidate path, as [connect_simple] computes it
    at the outset. *)
Lemma clear2_decides (components : list bounds) (ac : bool) (s c e : point) :
  exists f,
    (if ac then and_then (unobstructed components (s, c))
                         (unobstructed components (c, e))
     else Ret true) = Ret f /\
    (f = true <-> passable components ac [s; c; e]).
Proof.
  unfold passable, collision_free, legs_of. destruct ac.
  - destruct (unobstructed_bool components (s, c)) as (r1 & E1 & H1).
    destruct (unobstructed_bool components (c, e)) as (r2 & E2 & H2).
    exists (r1 && r2). split; [apply and_then_decides; assumption|].
    rewrite andb_true_iff, H1, H2. simpl. split.
    + intros [A B] _ sg [<-|[<-|[]]]; assumption.
    + intros H. split; apply (H eq_refl); auto.
  - exists true. split; [reflexivity|]. split; [discriminate|reflexivity].
Qed.

Lemma clear3_decides (components : list bounds) (ac : bool) (s c c' e : point) :
  exists f,
    (if ac then and_then (unobstructed components (s, c))
                 (and_then (unobstructed components (c, c'))
                           (unobstructed components (c', e)))
     else Ret true) = Ret f /\
    (f = true <-> passable components ac [s; c; c'; e]).
Proof.
  unfold passable, collision_free, legs_of. destruct ac.
  - destruct (unobstructed_bool components (s, c)) as (r1 & E1 & H1).
    destruct (unobstructed_bool components (c, c')) as (r2 & E2 & H2).
    destruct (unobstructed_bool components (c', e)) as (r3 & E3 & H3).
    exists (r1 && (r2 && r3)).
    split; [repeat apply and_then_decides; assumption|].
    rewrite !andb_true_iff, H1, H2, H3. simpl. split.
    + intros (A & B & C) _ sg [<-|[<-|[<-|[]]]]; assumption.
    + intros H. repeat split; apply (H eq_refl); auto.
  - exists true. split; [reflexivity|]. split; [discriminate|reflexivity].
Qed.

Lemma wide_corners (s e : point) :
  Qeq_bool (fst s) (fst e) = false ->
  negb (Qeq_bool (fst (if wide s e return point
                       then (fst e - fst s, 0)
                       else (0, snd e - snd s))) 0) = wide s e.
Proof.
  intros H. destruct (wide s e); simpl; [|reflexivity].
  apply negb_true_iff. apply Qeq_bool_false_iff.
  apply Qeq_bool_false_iff in H. lra.
Qed.

(** [connect_simple] on two ends that share no coordinate, as one decision
    over the four collision flags and the dot products. *)
Lemma connect_simple_rectangle (components : list bounds) (ac : bool)
    (s sd e : point) (ed : option point) :
  Qeq_bool (fst s) (fst e) || Qeq_bool (snd s) (snd e) = false ->
  exists f1 f2 f3 f5 : bool,
    (f1 = true <-> passable components ac [s; corner1 s e; e]) /\
    (f2 = true <-> passable components ac [s; corner2 s e; e]) /\
    (f3 = true <-> passable components ac [s; corner3 s e; corner4 s e; e]) /\
    (f5 = true <-> passable components ac [s; corner5 s e; corner6 s e; e]) /\
    connect_simple components ac (mkQRoutePoint s (Some sd)) (mkQRoutePoint e ed)
    = Ret
        (let d1 := dot sd (vsub (corner1 s e) s) in
         let d2 := dot sd (vsub (corner2 s e) s) in
         let d3 := dot sd (vsub (corner3 s e) s) in
         let d5 := dot sd (vsub (corner5 s e) s) in
         let toward c cmp := none_or ed (fun u => cmp (dot u (vsub c e)) 0) in
         let relaxed :=
           if Qlt_bool (dot sd (stop_direction s e)) 0 && (Qgt_bool d3 0 && f3)
              && toward (corner4 s e) Qgt_bool
           then [s; corner3 s e; corner4 s e; e]
           else if Qge_bool d1 0 && f1 && toward (corner1 s e) Qge_bool
           then [s; corner1 s e; e]
           else if Qge_bool d2 0 && f2 && toward (corner2 s e) Qge_bool
           then [s; corner2 s e; e]
           else if Qge_bool d3 0 && f3 && toward (corner4 s e) Qge_bool
           then [s; corner3 s e; corner4 s e; e]
           else if Qge_bool d5 0 && f5 && toward (corner6 s e) Qge_bool
           then [s; corner5 s e; corner6 s e; e]
           else [] in
         if Qgt_bool d1 0 && f1
         then if toward (corner1 s e) Qgt_bool then [s; corner1 s e; e] else relaxed
         else if Qgt_bool d2 0 && f2
         then if toward (corner2 s e) Qgt_bool then [s; corner2 s e; e] else relaxed
         else relaxed).
Proof.
  intros NC.
  assert (NCx : Qeq_bool (fst s) (fst e) = false)
    by (apply orb_false_iff in NC; tauto).
  destruct (clear2_decides components ac s (corner1 s e) e) as (f1 & E1 & H1).
  destruct (clear2_decides components ac s (corner2 s e) e) as (f2 & E2 & H2).
  destruct (clear3_decides components ac s (corner3 s e) (corner4 s e) e)
    as (f3 & E3 & H3).
  destruct (clear3_decides components ac s (corner5 s e) (corner6 s e) e)
    as (f5 & E5 & H5).
  exists f1, f2, f3, f5. repeat (split; [assumption|]).
  clear H1 H2 H3 H5.
  unfold connect_simple; cbv zeta; simpl position; simpl direction.
  rewrite NC.
  change (fst s, snd e) with (corner1 s e).
  change (fst e, snd s) with (corner2 s e).
  rewrite E1, E2. cbn [bind].
  change (Qge_bool (Qabs (fst e - fst s)) (Qabs (snd e - snd s))) with (wide s e).
  rewrite (wide_corners s e NCx).
  unfold corner3, corner4, corner5, corner6, stop_direction in *.
  destruct (wide s e); cbv iota beta in *; unfold point, segment in *;
    rewrite E3, E5; cbn [bind np_dot and_then];
    repeat match goal with
           | |- context [if ?c then _ else _] => destruct c; cbn [bind andb]
           end;
    reflexivity.
Qed.

Lemma connect_simple_straight (components : list bounds) (ac : bool)
    (s sd e : point) (ed : option point) :
  Qeq_bool (fst s) (fst e) || Qeq_bool (snd s) (snd e) = true ->
  connect_simple components ac (mkQRoutePoint s (Some sd)) (mkQRoutePoint e ed)
  = Ret (if Qge_bool (dot sd (vsub e s)) 0
            && none_or ed (fun u => Qle_bool (dot (vsub e s) u) 0)
         then [s; e] else []).
Proof.
  intros C. unfold connect_simple; cbv zeta; simpl position; simpl direction.
  rewrite C. cbn [bind np_dot].
  destruct (Qge_bool _ _); [|reflexivity].
  destruct (none_or _ _); reflexivity.
Qed.

Lemma collinear_iff (s e : point) :
  Qeq_bool (fst s) (fst e) || Qeq_bool (snd s) (snd e) = true <-> collinear s e.
Proof. unfold collinear. rewrite orb_true_iff, !Qeq_bool_iff. tauto. Qed.

Lemma not_collinear_iff (s e : point) :
  Qeq_bool (fst s) (fst e) || Qeq_bool (snd s) (snd e) = false <-> ~ collinear s e.
Proof. rewrite <- collinear_iff. symmetry. apply not_true_iff_false. Qed.

Lemma toward_ge (ed : option point) (g : point -> Q) :
  none_or ed (fun u => Qge_bool (g u) 0) = true <->
  forall u, ed = Some u -> 0 <= g u.
Proof.
  destruct ed as [u|]; simpl.
  - rewrite Qge_bool_iff. split; [intros H v E; injection E as <-; exact H | auto].
  - split; [discriminate | reflexivity].
Qed.

Lemma toward_gt (ed : option point) (g : point -> Q) :
  none_or ed (fun u => Qgt_bool (g u) 0) = true <->
  forall u, ed = Some u -> 0 < g u.
Proof.
  destruct ed as [u|]; simpl.
  - rewrite Qgt_bool_iff. split; [intros H v E; injection E as <-; exact H | auto].
  - split; [discriminate | reflexivity].
Qed.

Lemma toward_le (ed : option point) (g : point -> Q) :
  none_or ed (fun u => Qle_bool (g u) 0) = true <->
  forall u, ed = Some u -> g u <= 0.
Proof.
  destruct ed as [u|]; simpl.
  - rewrite Qle_bool_iff. split; [intros H v E; injection E as <-; exact H | auto].
  - split; [discriminate | reflexivity].
Qed.

Lemma toward_gt_ge (ed : option point) (g : point -> Q) :
  none_or ed (fun u => Qgt_bool (g u) 0) = true ->
  none_or ed (fun u => Qge_bool (g u) 0) = true.
Proof.
  rewrite toward_gt, toward_ge. intros H u E. apply Qlt_le_weak. auto.
Qed.

Lemma Qgt_ge_bool (x : Q) : Qgt_bool x 0 = true -> Qge_bool x 0 = true.
Proof. rewrite Qgt_bool_iff, Qge_bool_iff. apply Qlt_le_weak. Qed.

Lemma corner_cases (s e : point) :
  (corner3 s e = ((fst s + fst e) / 2, snd s) /\
   corner4 s e = ((fst s + fst e) / 2, snd e) /\
   corner5 s e = (fst s, (snd s + snd e) / 2) /\
   corner6 s e = (fst e, (snd s + snd e) / 2)) \/
  (corner3 s e = (fst s, (snd s + snd e) / 2) /\
   corner4 s e = (fst e, (snd s + snd e) / 2) /\
   corner5 s e = ((fst s + fst e) / 2, snd s) /\
   corner6 s e = ((fst s + fst e) / 2, snd e)).
Proof.
  unfold corner3, corner4, corner5, corner6. destruct (wide s e); auto.
Qed.

(** An L-shaped candidate that passed its tests. *)
Lemma L_leg_sound (components : list bounds) (ac : bool)
    (sd : point) (ed : option point) (s e c : point) (f : bool) :
  ~ collinear s e ->
  c = corner1 s e \/ c = corner2 s e ->
  (f = true <-> passable components ac [s; c; e]) ->
  Qge_bool (dot sd (vsub c s)) 0 && f
    && none_or ed (fun u => Qge_bool (dot u (vsub c e)) 0) = true ->
  sound_leg components ac sd ed s e [s; c; e].
Proof.
  intros NC Hc Hf H. apply andb_true_iff in H. destruct H as [H He].
  apply andb_true_iff in H. destruct H as [Hd Hfl].
  apply Qge_bool_iff in Hd. rewrite toward_ge in He.
  unfold sound_leg. split; [apply joins_3|]. split; [|split; [|split; [|split]]].
  - intros sg [<-|[<-|[]]]; destruct Hc as [-> | ->]; simpl;
      ((left; reflexivity) || (right; reflexivity)).
  - exact Hd.
  - unfold arrives_against. destruct ed as [u|]; simpl; auto.
  - intros C. contradiction.
  - intros _. split; [apply Hf; exact Hfl | left; reflexivity].
Qed.

(** An S-shaped candidate that passed its tests. *)
Lemma S_leg_sound (components : list bounds) (ac : bool)
    (sd : point) (ed : option point) (s e c c' : point) (f : bool) :
  ~ collinear s e ->
  (c = corner3 s e /\ c' = corner4 s e) \/ (c = corner5 s e /\ c' = corner6 s e) ->
  (f = true <-> passable components ac [s; c; c'; e]) ->
  Qge_bool (dot sd (vsub c s)) 0 && f
    && none_or ed (fun u => Qge_bool (dot u (vsub c' e)) 0) = true ->
  sound_leg components ac sd ed s e [s; c; c'; e].
Proof.
  intros NC Hc Hf H. apply andb_true_iff in H. destruct H as [H He].
  apply andb_true_iff in H. destruct H as [Hd Hfl].
  apply Qge_bool_iff in Hd. rewrite toward_ge in He.
  unfold sound_leg. split; [apply joins_4|]. split; [|split; [|split; [|split]]].
  - destruct (corner_cases s e) as [(E3 & E4 & E5 & E6)|(E3 & E4 & E5 & E6)];
      intros sg [<-|[<-|[<-|[]]]]; destruct Hc as [[-> ->] | [-> ->]];
      rewrite ?E3, ?E4, ?E5, ?E6; simpl;
      ((left; reflexivity) || (right; reflexivity)).
  - exact Hd.
  - unfold arrives_against. destruct ed as [u|]; simpl; auto.
  - intros C. contradiction.
  - intros _. split; [apply Hf; exact Hfl | right; reflexivity].
Qed.

Lemma straight_leg_sound (components : list bounds) (ac : bool)
    (sd : point) (ed : option point) (s e : point) :
  collinear s e ->
  Qge_bool (dot sd (vsub e s)) 0
    && none_or ed (fun u => Qle_bool (dot (vsub e s) u) 0) = true ->
  sound_leg components ac sd ed s e [s; e].
Proof.
  intros C H. apply andb_true_iff in H. destruct H as [Hd He].
  apply Qge_bool_iff in Hd. rewrite toward_le in He.
  unfold sound_leg. split; [apply joins_2|]. split; [|split; [|split; [|split]]].
  - intros sg [<-|[]]. exact C.
  - exact Hd.
  - unfold arrives_against. destruct ed as [u|]; simpl; auto.
    specialize (He u eq_refl). unfold dot, vsub in *. simpl in *. lra.
  - reflexivity.
  - intros NC. contradiction.
Qed.

(** Every non-empty result of [connect_simple] is a sound leg. *)
Lemma connect_simple_sound (components : list bounds) (ac : bool)
    (s sd e : point) (ed : option point) (l : list point) :
  connect_simple components ac (mkQRoutePoint s (Some sd)) (mkQRoutePoint e ed)
  = Ret l ->
  l <> [] -> sound_leg components ac sd ed s e l.
Proof.
  destruct (Qeq_bool (fst s) (fst e) || Qeq_bool (snd s) (snd e)) eqn:C.
  - rewrite (connect_simple_straight _ _ _ _ _ _ C).
    apply collinear_iff in C.
    destruct (_ && _) eqn:T; intros X Hl; injection X as <-.
    + apply straight_leg_sound; assumption.
    + contradiction Hl; reflexivity.
  - destruct (connect_simple_rectangle components ac s sd e ed C)
      as (f1 & f2 & f3 & f5 & H1 & H2 & H3 & H5 & ->).
    apply not_collinear_iff in C. cbv zeta.
    repeat match goal with
           | |- context [if ?c then _ else _] => destruct c eqn:?
           end;
      intros X Hl; injection X as <-; try (contradiction Hl; reflexivity);
      repeat match goal with
             | H : _ && _ = true |- _ => apply andb_true_iff in H; destruct H
             end;
      repeat match goal with
             | H : Qgt_bool _ 0 = true |- _ => apply Qgt_ge_bool in H
             | H : none_or _ (fun u => Qgt_bool _ 0) = true |- _ =>
                 apply toward_gt_ge in H
             end;
      first
        [ apply (L_leg_sound _ _ _ _ _ _ _ f1); [assumption|left; reflexivity|assumption|]
        | apply (L_leg_sound _ _ _ _ _ _ _ f2); [assumption|right; reflexivity|assumption|]
        | apply (S_leg_sound _ _ _ _ _ _ _ _ f3); [assumption|left; split; reflexivity|assumption|]
        | apply (S_leg_sound _ _ _ _ _ _ _ _ f5); [assumption|right; split; reflexivity|assumption|] ];
      repeat (apply andb_true_iff; split); assumption.
Qed.

(** X10.  Every path [connect_simple] returns is made of horizontal and
    vertical segments only. *)
Theorem connect_simple_axis_aligned (components : list bounds) (ac : bool)
    (start_pt end_pt : QRoutePoint) (l : list point) :
  connect_simple components ac start_pt end_pt = Ret l -> axis_aligned l.
Proof.
  destruct start_pt as [s [sd|]]; destruct end_pt as [e ed]; intros H.
  - destruct l as [|p l']; [intros sg []|].
    apply (connect_simple_sound components ac s sd e ed); [exact H|discriminate].
  - rewrite connect_simple_undirected in H; [discriminate|reflexivity].
Qed.

Lemma connect_simple_axis_aligned_witness :
  axis_aligned [(0, 0); (5 # 2, 0); (5 # 2, 5); (5, 5)].
Proof.
  apply (connect_simple_axis_aligned [(-1, 2, 1, 4); (4, -1, 6, 1)] true
           (mkQRoutePoint (0, 0) (Some (1, 1)))
           (mkQRoutePoint (5, 5) None)).
  reflexivity.
Defined.

(** X11.  With [avoid_collision] set and two ends that share no coordinate,
    every segment of the returned path passes [unobstructed]. *)
Theorem connect_simple_collision_free (components : list bounds)
    (start_pt end_pt : QRoutePoint) (l : list point) :
  ~ collinear (position start_pt) (position end_pt) ->
  connect_simple components true start_pt end_pt = Ret l ->
  collision_free components l.
Proof.
  destruct start_pt as [s [sd|]]; destruct end_pt as [e ed]; simpl; intros NC H.
  - destruct l as [|p l']; [intros sg []|].
    apply (connect_simple_sound components true s sd e ed); auto. discriminate.
  - rewrite connect_simple_undirected in H; [discriminate|reflexivity].
Qed.

Lemma connect_simple_collision_free_witness :
  collision_free [(-1, 2, 1, 4)] [(0, 0); (5, 0); (5, 5)].
Proof.
  apply (connect_simple_collision_free [(-1, 2, 1, 4)]
           (mkQRoutePoint (0, 0) (Some (1, 1)))
           (mkQRoutePoint (5, 5) None)).
  - unfold collinear; simpl. intros [H|H]; vm_compute in H; discriminate.
  - reflexivity.
Defined.

(** X12.  The first segment of a returned path never runs against the start
    direction, and, when the end has a direction, the last segment never
    leaves the end point on the side opposite to that direction: both dot
    products are non-negative. *)
Theorem connect_simple_respects_directions (components : list bounds) (ac : bool)
    (start_pt end_pt : QRoutePoint) (sd : point) (l : list point) :
  direction start_pt = Some sd ->
  connect_simple components ac start_pt end_pt = Ret l ->
  leaves_along sd l /\ arrives_against (direction end_pt) l.
Proof.
  destruct start_pt as [s sd']; destruct end_pt as [e ed]; simpl.
  intros -> H. destruct l as [|p l'].
  - split; [exact I|]. unfold arrives_against. destruct ed; exact I.
  - assert (S : sound_leg components ac sd ed s e (p :: l'))
      by (apply connect_simple_sound; [exact H|discriminate]).
    destruct S as (_ & _ & S1 & S2 & _). split; assumption.
Qed.

Lemma connect_simple_respects_directions_witness :
  leaves_along (1, 0) [(0, 0); (5, 0); (5, 5)] /\
  arrives_against (Some (0, -1)) [(0, 0); (5, 0); (5, 5)].
Proof.
  apply (connect_simple_respects_directions [] false
           (mkQRoutePoint (0, 0) (Some (1, 0)))
           (mkQRoutePoint (5, 5) (Some (0, -1))) (1, 0)); reflexivity.
Defined.

(** X13.  [connect_simple] returns the empty list or a path of two
    vertices when the ends share a coordinate, and the empty list or a path
    of three or four vertices when they do not. *)
Theorem connect_simple_vertex_count (components : list bounds) (ac : bool)
    (start_pt end_pt : QRoutePoint) (l : list point) :
  connect_simple components ac start_pt end_pt = Ret l ->
  (collinear (position start_pt) (position end_pt) ->
   l = [] \/ length l = 2%nat) /\
  (~ collinear (position start_pt) (position end_pt) ->
   l = [] \/ length l = 3%nat \/ length l = 4%nat).
Proof.
  destruct start_pt as [s [sd|]]; destruct end_pt as [e ed]; simpl; intros H.
  - destruct l as [|p l']; [split; auto|].
    assert (S : sound_leg components ac sd ed s e (p :: l'))
      by (apply connect_simple_sound; [exact H|discriminate]).
    destruct S as (_ & _ & _ & _ & S1 & S2).
    split; intros C; right; [apply S1 | apply S2]; exact C.
  - rewrite connect_simple_undirected in H; [discriminate|reflexivity].
Qed.

Lemma connect_simple_vertex_count_witness :
  [(0, 0); (5, 0); (5, 5)] = [] \/
  length [(0, 0); (5, 0); (5, 5)] = 3%nat \/
  length [(0, 0); (5, 0); (5, 5)] = 4%nat.
Proof.
  apply (proj2 (connect_simple_vertex_count [] false
                  (mkQRoutePoint (0, 0) (Some (1, 0)))
                  (mkQRoutePoint (5, 5) (Some (0, -1))) _ eq_refl)).
  unfold collinear; simpl. intros [H|H]; vm_compute in H; discriminate.
Defined.

(** The tests of the perfectly aligned S exclude each other: the start
    direction cannot both oppose the stop direction and favour corner3,
    which lies half-way along it. *)
Lemma perfect_S_dead (sd s e : point) (f3 : bool) :
  Qlt_bool (dot sd (stop_direction s e)) 0
    && (Qgt_bool (dot sd (vsub (corner3 s e) s)) 0 && f3) = false.
Proof.
  destruct (Qlt_bool _ _) eqn:A; [|reflexivity].
  destruct (Qgt_bool _ _) eqn:B; [|reflexivity].
  exfalso. apply Qlt_bool_iff in A. apply Qgt_bool_iff in B.
  unfold dot, vsub, stop_direction, corner3 in *.
  destruct (wide s e); cbn [fst snd] in *;
    unfold Qdiv in *; change (/ 2) with (1 # 2) in *; lra.
Qed.


Lemma acceptable_L_test (components : list bounds) (ac : bool)
    (sd : point) (ed : option point) (s e c : point) (f : bool) :
  (f = true <-> passable components ac [s; c; e]) ->
  Qge_bool (dot sd (vsub c s)) 0 && f
    && none_or ed (fun u => Qge_bool (dot u (vsub c e)) 0) = true <->
  acceptable_L components ac sd ed s e c.
Proof.
  intros Hf. unfold acceptable_L.
  rewrite !andb_true_iff, Qge_bool_iff, toward_ge, Hf. tauto.
Qed.

Lemma perfect_L_test (components : list bounds) (ac : bool)
    (sd : point) (ed : option point) (s e c : point) (f : bool) :
  (f = true <-> passable components ac [s; c; e]) ->
  Qgt_bool (dot sd (vsub c s)) 0 && f
    && none_or ed (fun u => Qgt_bool (dot u (vsub c e)) 0) = true <->
  perfect_L components ac sd ed s e c.
Proof.
  intros Hf. unfold perfect_L.
  rewrite !andb_true_iff, Qgt_bool_iff, toward_gt, Hf. tauto.
Qed.

Ltac split_tests :=
  repeat match goal with
         | |- context [if ?c then _ else _] => destruct c eqn:?
         end.

(** X14.  Fewest bends first: when the ends share no coordinate and an
    L-shaped path through corner1 or corner2 satisfies the relaxed
    constraints, [connect_simple] returns an L-shaped path, never an S. *)
Theorem connect_simple_prefers_L (components : list bounds) (ac : bool)
    (s sd e : point) (ed : option point) :
  ~ collinear s e ->
  acceptable_L components ac sd ed s e (corner1 s e) \/
  acceptable_L components ac sd ed s e (corner2 s e) ->
  let leg := connect_simple components ac (mkQRoutePoint s (Some sd))
                            (mkQRoutePoint e ed) in
  leg = Ret [s; corner1 s e; e] \/ leg = Ret [s; corner2 s e; e].
Proof.
  intros NC H. cbv zeta. apply not_collinear_iff in NC.
  destruct (connect_simple_rectangle components ac s sd e ed NC)
    as (f1 & f2 & f3 & f5 & H1 & H2 & H3 & H5 & ->).
  cbv zeta. rewrite perfect_S_dead. cbn [andb].
  rewrite <- (acceptable_L_test _ _ _ _ _ _ _ f1 H1) in H.
  rewrite <- (acceptable_L_test _ _ _ _ _ _ _ f2 H2) in H.
  split_tests; auto; destruct H; congruence.
Qed.

Lemma connect_simple_prefers_L_witness :
  connect_simple [(4, -1, 6, 1)] true
    (mkQRoutePoint (0, 0) (Some (1, 1))) (mkQRoutePoint (5, 5) None)
  = Ret [(0, 0); corner1 (0, 0) (5, 5); (5, 5)] \/
  connect_simple [(4, -1, 6, 1)] true
    (mkQRoutePoint (0, 0) (Some (1, 1))) (mkQRoutePoint (5, 5) None)
  = Ret [(0, 0); corner2 (0, 0) (5, 5); (5, 5)].
Proof.
  apply (connect_simple_prefers_L [(4, -1, 6, 1)] true (0, 0) (1, 1) (5, 5) None).
  - unfold collinear; simpl. intros [H|H]; vm_compute in H; discriminate.
  - left. unfold acceptable_L. split; [vm_compute; discriminate|].
    split; [|discriminate].
    intros _ sg [<-|[<-|[]]]; reflexivity.
Defined.

(** X15.  The perfect L via corner1 has the first rank; the perfect L via
    corner2 is returned whenever corner1's start test fails or its path is
    obstructed, and also when corner1's end product is strictly negative. *)
Theorem connect_simple_perfect_L (components : list bounds) (ac : bool)
    (s sd e : point) (ed : option point) :
  ~ collinear s e ->
  let leg := connect_simple components ac (mkQRoutePoint s (Some sd))
                            (mkQRoutePoint e ed) in
  (perfect_L components ac sd ed s e (corner1 s e) ->
   leg = Ret [s; corner1 s e; e]) /\
  (perfect_L components ac sd ed s e (corner2 s e) ->
   ~ (0 < dot sd (vsub (corner1 s e) s) /\
      passable components ac [s; corner1 s e; e]) \/
   (exists u, ed = Some u /\ dot u (vsub (corner1 s e) e) < 0) ->
   leg = Ret [s; corner2 s e; e]).
Proof.
  intros NC. cbv zeta. apply not_collinear_iff in NC.
  destruct (connect_simple_rectangle components ac s sd e ed NC)
    as (f1 & f2 & f3 & f5 & H1 & H2 & H3 & H5 & ->).
  cbv zeta. rewrite perfect_S_dead. cbn [andb]. split.
  - intros P. apply (perfect_L_test _ _ _ _ _ _ _ f1 H1) in P.
    apply andb_true_iff in P. destruct P as [-> ->]. reflexivity.
  - intros P Hc1.
    assert (A2 : acceptable_L components ac sd ed s e (corner2 s e)).
    { destruct P as (P1 & P2 & P3). split; [lra|]. split; [exact P2|].
      intros u E. apply Qlt_le_weak. auto. }
    apply (acceptable_L_test _ _ _ _ _ _ _ f2 H2) in A2.
    apply (perfect_L_test _ _ _ _ _ _ _ f2 H2) in P.
    apply andb_true_iff in P. destruct P as [P1 P2]. rewrite P1, P2, A2.
    destruct Hc1 as [Hc1|(u & -> & Hu)].
    + assert (F : Qgt_bool (dot sd (vsub (corner1 s e) s)) 0 && f1 = false).
      { apply not_true_iff_false. intros T. apply Hc1.
        apply andb_true_iff in T. destruct T as [T1 T2].
        apply Qgt_bool_iff in T1. split; [exact T1 | apply H1; exact T2]. }
      rewrite F. reflexivity.
    + assert (F : Qge_bool (dot u (vsub (corner1 s e) e)) 0 = false).
      { apply not_true_iff_false. rewrite Qge_bool_iff. lra. }
      assert (G : Qgt_bool (dot u (vsub (corner1 s e) e)) 0 = false).
      { apply not_true_iff_false. rewrite Qgt_bool_iff. lra. }
      simpl none_or. rewrite F, G, andb_false_r.
      destruct (Qgt_bool (dot sd (vsub (corner1 s e) s)) 0 && f1); reflexivity.
Qed.

Lemma connect_simple_perfect_L_witness :
  connect_simple [] false (mkQRoutePoint (0, 0) (Some (1, 1)))
                          (mkQRoutePoint (1, 1) (Some (1, -1)))
  = Ret [(0, 0); corner2 (0, 0) (1, 1); (1, 1)].
Proof.
  apply (proj2 (connect_simple_perfect_L [] false (0, 0) (1, 1) (1, 1)
                  (Some (1, -1)) ltac:(unfold collinear; simpl;
                    intros [H|H]; vm_compute in H; discriminate))).
  - unfold perfect_L. split; [reflexivity|]. split; [discriminate|].
    intros u E. injection E as <-. reflexivity.
  - right. exists (1, -1). split; reflexivity.
Defined.





(** * Further properties of the orchestrator *)

Lemma snoc_decompose {A : Type} (cs before after : list A) (c c' : A) :
  cs ++ [c] = before ++ c' :: after ->
  (after = [] /\ before = cs /\ c' = c) \/
  (exists after', after = after' ++ [c] /\ cs = before ++ c' :: after').
Proof.
  destruct after as [|a after1] using rev_ind.
  - intros H. left. apply app_inj_tail in H. destruct H as [-> ->]. auto.
  - clear IHafter1. intros H. right. exists after1.
    change (before ++ c' :: after1 ++ [a])
      with (before ++ (c' :: after1) ++ [a]) in H.
    rewrite app_assoc in H. apply app_inj_tail in H. destruct H as [-> ->].
    split; reflexivity.
Qed.

Section MakeTrace.

Variable components : list bounds.
Variable avoid_collision : bool.
Variables meander_start_point meander_end_point : QRoutePoint.
Variable get_tip : option (list point) -> QRoutePoint.

Hypothesis start_directed : direction meander_start_point <> None.
Hypothesis tip_directed : forall pts, direction (get_tip pts) <> None.

Lemma origins_snoc (cs : list leg_call) (c : leg_call) :
  origins_traced meander_start_point get_tip cs ->
  leg_start c = leg_origin meander_start_point get_tip cs ->
  origins_traced meander_start_point get_tip (cs ++ [c]).
Proof.
  intros H Hc before c' after E.
  apply snoc_decompose in E. destruct E as [(-> & -> & ->)|(after' & -> & ->)].
  - exact Hc.
  - apply (H before c' after'). reflexivity.
Qed.

Lemma anchor_step_origin (st st' : route) (coord : point) :
  accumulated components avoid_collision meander_start_point st ->
  anchor_step components avoid_collision meander_start_point get_tip st coord
  = Ret st' ->
  exists c, calls st' = calls st ++ [c] /\
            leg_start c = leg_origin meander_start_point get_tip (calls st).
Proof.
  intros [_ Hacc]. unfold anchor_step, plan, leg_origin, placed.
  destruct (intermediate_pts st) as [[|p pts]|] eqn:Hpts;
    destruct (connect_simple _ _ _ _) as [leg|err]; simpl; try discriminate;
    intros X; injection X as <-; simpl; eexists; (split; [reflexivity|]); simpl.
  - destruct Hacc as [[Y _]|[Y _]]; [discriminate|].
    injection Y as <-. reflexivity.
  - destruct Hacc as [[Y _]|[Y _]]; [discriminate|].
    injection Y as <-. reflexivity.
  - destruct Hacc as [[_ Y]|[Y _]]; [|discriminate].
    rewrite Y. reflexivity.
Qed.

Lemma anchor_loop_traced (coords : list point) :
  forall st,
    accumulated components avoid_collision meander_start_point st ->
    origins_traced meander_start_point get_tip (calls st) ->
    exists st',
      anchor_loop components avoid_collision meander_start_point get_tip st coords
      = Ret st' /\
      map leg_end (calls st') = map leg_end (calls st) ++ map anchor_point coords /\
      (coords <> [] -> intermediate_pts st' = Some (placed (calls st'))) /\
      (coords = [] -> st' = st) /\
      accumulated components avoid_collision meander_start_point st' /\
      origins_traced meander_start_point get_tip (calls st').
Proof.
  induction coords as [|coord rest IH]; intros st Hacc Ho; simpl.
  - exists st. rewrite app_nil_r.
    split; [reflexivity|]. split; [reflexivity|].
    split; [intros X; contradiction X; reflexivity|]. auto.
  - destruct (anchor_step_accumulates components avoid_collision
                meander_start_point get_tip start_directed tip_directed
                st coord Hacc) as (st1 & c & E & Hc & He & Hp & Hacc1).
    destruct (anchor_step_origin st st1 coord Hacc E) as (c' & Hc' & Hs).
    rewrite E. simpl.
    assert (Ho1 : origins_traced meander_start_point get_tip (calls st1)).
    { rewrite Hc'. apply origins_snoc; assumption. }
    destruct (IH st1 Hacc1 Ho1) as (st' & -> & Hends & Hp' & Hnil & Hacc' & Ho').
    exists st'. split; [reflexivity|].
    split; [|split; [|split; [discriminate|split; assumption]]].
    + rewrite Hends, Hc, map_app. simpl. rewrite He, <- app_assoc. reflexivity.
    + intros _. destruct rest as [|coord' rest'].
      * rewrite (Hnil eq_refl). exact Hp.
      * apply Hp'. discriminate.
Qed.

(** What [make] returns, call by call. *)
Lemma make_trace {K : Type} (anchors : list (K * point)) :
  exists st leg,
    let final := mkLegCall (get_tip (intermediate_pts st)) meander_end_point leg in
    make components avoid_collision meander_start_point meander_end_point
         get_tip anchors
    = Ret (mkRoute (Some (placed (calls st ++ [final]))) (calls st ++ [final])) /\
    map leg_end (calls st) = map (fun kp => anchor_point (snd kp)) anchors /\
    (anchors = [] -> st = mkRoute None []) /\
    (anchors <> [] -> intermediate_pts st = Some (placed (calls st))) /\
    Forall (genuine components avoid_collision) (calls st ++ [final]) /\
    origins_traced meander_start_point get_tip (calls st).
Proof.
  unfold make.
  destruct (anchor_loop_traced (map snd anchors) (mkRoute None [])
              (accumulated_initial components avoid_collision meander_start_point))
    as (st & E & Hends & Hp & Hnil & Hacc & Ho).
  { intros before c after X. destruct before; discriminate. }
  rewrite E. cbn [bind].
  destruct (plan_returns components avoid_collision st
              (get_tip (intermediate_pts st)) meander_end_point (tip_directed _))
    as (leg & -> & G).
  cbn [bind]. exists st, leg. cbv zeta.
  split; [|split; [|split; [|split; [|split]]]].
  - unfold placed. rewrite concat_contribution_snoc. unfold contribution at 2.
    simpl leg_vertices.
    destruct Hacc as [_ [[Hi Hc]|[Hi _]]]; rewrite Hi.
    + rewrite Hc. reflexivity.
    + destruct (concat (map contribution (calls st))); reflexivity.
  - simpl in Hends. rewrite Hends, map_map. reflexivity.
  - intros ->. apply Hnil. reflexivity.
  - intros Ha. apply Hp. destruct anchors; [contradiction Ha; reflexivity|discriminate].
  - apply Forall_app. split; [apply Hacc|]. constructor; [exact G|constructor].
  - exact Ho.
Qed.

End MakeTrace.

(** X18.  Where each leg starts: the leg to an anchor starts from the
    lead-in point as long as the earlier legs have placed no vertex -- so
    after a failed first leg the next one starts from the lead-in point
    again -- and from [get_tip()] of the path placed so far otherwise; the
    final leg always starts from [get_tip()]. *)
Theorem make_leg_starts (K : Type) (components : list bounds) (avoid_collision : bool)
    (meander_start_point meander_end_point : QRoutePoint)
    (get_tip : option (list point) -> QRoutePoint) (anchors : list (K * point)) :
  direction meander_start_point <> None ->
  (forall pts, direction (get_tip pts) <> None) ->
  exists r,
    make components avoid_collision meander_start_point meander_end_point
         get_tip anchors = Ret r /\
    (forall before c after,
       calls r = before ++ c :: after -> after <> [] ->
       leg_start c = leg_origin meander_start_point get_tip before) /\
    (forall before c,
       calls r = before ++ [c] ->
       leg_start c = get_tip (match anchors with
                              | [] => None
                              | _ :: _ => Some (placed before)
                              end)).
Proof.
  intros Hs Ht.
  destruct (make_trace components avoid_collision meander_start_point
              meander_end_point get_tip Hs Ht anchors)
    as (st & leg & E & _ & Hnil & Hp & _ & Ho).
  cbv zeta in E. eexists. split; [exact E|]. simpl calls. split.
  - intros before c after X Hafter.
    apply snoc_decompose in X.
    destruct X as [(-> & _)|(after' & -> & X)]; [contradiction Hafter; reflexivity|].
    apply (Ho before c after'). exact X.
  - intros before c X. apply app_inj_tail in X. destruct X as [<- <-].
    simpl. destruct anchors as [|kp anchors'].
    + rewrite (Hnil eq_refl). reflexivity.
    + rewrite Hp; [reflexivity|discriminate].
Qed.

Lemma make_leg_starts_witness :
  exists r,
    make [] false (mkQRoutePoint (0, 0) (Some (1, 0)))
      (mkQRoutePoint (5, 5) (Some (0, -1)))
      (tip_of (mkQRoutePoint (0, 0) (Some (1, 0))))
      [(1%nat, (-2, 0)); (2%nat, (2, 3))] = Ret r /\
    map leg_start (firstn 2 (calls r))
    = [mkQRoutePoint (0, 0) (Some (1, 0)); mkQRoutePoint (0, 0) (Some (1, 0))].
Proof.
  destruct (make_leg_starts nat [] false (mkQRoutePoint (0, 0) (Some (1, 0)))
              (mkQRoutePoint (5, 5) (Some (0, -1)))
              (tip_of (mkQRoutePoint (0, 0) (Some (1, 0))))
              [(1%nat, (-2, 0)); (2%nat, (2, 3))])
    as (r & Hr & _).
  - simpl. discriminate.
  - intros [[|p rest]|]; simpl; discriminate.
  - exists r. split; [exact Hr|].
    vm_compute in Hr. injection Hr as <-. reflexivity.
Defined.

Lemma genuine_contribution (components : list bounds) (ac : bool) (c : leg_call) :
  genuine components ac c ->
  leg_vertices c <> [] ->
  exists before, contribution c = before ++ [position (leg_end c)].
Proof.
  intros [_ [E|(middle & E)]] H; [contradiction|].
  exists middle. unfold contribution. rewrite E. reflexivity.
Qed.

Lemma placed_In (cs : list leg_call) (c : leg_call) (p : point) :
  In c cs -> In p (contribution c) -> In p (placed cs).
Proof.
  intros Hc Hp. unfold placed. apply in_concat.
  exists (contribution c). split; [apply in_map; exact Hc | exact Hp].
Qed.

(** X19.  The route passes through its anchors: every anchor whose leg
    [connect_simple] could plan (a non-empty vertex list) is a vertex of the
    accumulated path, and so is the lead-out point when the final leg could
    be planned. *)
Theorem make_visits_anchors (K : Type) (components : list bounds)
    (avoid_collision : bool)
    (meander_start_point meander_end_point : QRoutePoint)
    (get_tip : option (list point) -> QRoutePoint) (anchors : list (K * point)) :
  direction meander_start_point <> None ->
  (forall pts, direction (get_tip pts) <> None) ->
  exists r pts,
    make components avoid_collision meander_start_point meander_end_point
         get_tip anchors = Ret r /\
    intermediate_pts r = Some pts /\
    (forall c, In c (calls r) -> leg_vertices c <> [] ->
               In (position (leg_end c)) pts) /\
    (forall k coord, In (k, coord) anchors ->
       exists c, In c (calls r) /\ leg_end c = anchor_point coord /\
                 (leg_vertices c = [] \/ In coord pts)).
Proof.
  intros Hs Ht.
  destruct (make_trace components avoid_collision meander_start_point
              meander_end_point get_tip Hs Ht anchors)
    as (st & leg & E & Hends & _ & _ & Hg & _).
  cbv zeta in E. eexists. eexists. split; [exact E|]. split; [reflexivity|].
  simpl calls.
  assert (V : forall c,
    In c (calls st ++ [mkLegCall (get_tip (intermediate_pts st)) meander_end_point leg]) ->
    leg_vertices c <> [] ->
    In (position (leg_end c))
       (placed (calls st ++ [mkLegCall (get_tip (intermediate_pts st)) meander_end_point leg]))).
  { intros c Hc Hne.
    rewrite Forall_forall in Hg.
    destruct (genuine_contribution _ _ c (Hg c Hc) Hne) as (before & Eb).
    apply (placed_In _ c); [exact Hc|].
    rewrite Eb. apply in_or_app. right. left. reflexivity. }
  split; [exact V|].
  intros k coord Hin.
  assert (Hex : In (anchor_point coord) (map leg_end (calls st))).
  { rewrite Hends. apply (in_map (fun kp => anchor_point (snd kp)) _ (k, coord)).
    exact Hin. }
  apply in_map_iff in Hex. destruct Hex as (c & Hce & Hc).
  exists c. split; [apply in_or_app; left; exact Hc|]. split; [exact Hce|].
  destruct (leg_vertices c) as [|v vs] eqn:Hv; [left; reflexivity|right].
  assert (X : In (position (leg_end c))
                (placed (calls st ++ [mkLegCall (get_tip (intermediate_pts st))
                                                meander_end_point leg]))).
  { apply V; [apply in_or_app; left; exact Hc | rewrite Hv; discriminate]. }
  rewrite Hce in X. exact X.
Qed.

Lemma make_visits_anchors_witness :
  exists r pts,
    make [] false (mkQRoutePoint (0, 0) (Some (1, 0)))
      (mkQRoutePoint (5, 5) (Some (0, -1)))
      (tip_of (mkQRoutePoint (0, 0) (Some (1, 0))))
      [(1%nat, (2, 0)); (2%nat, (2, 3))] = Ret r /\
    intermediate_pts r = Some pts /\ In (2, 3) pts.
Proof.
  destruct (make_visits_anchors nat [] false (mkQRoutePoint (0, 0) (Some (1, 0)))
              (mkQRoutePoint (5, 5) (Some (0, -1)))
              (tip_of (mkQRoutePoint (0, 0) (Some (1, 0))))
              [(1%nat, (2, 0)); (2%nat, (2, 3))])
    as (r & pts & Hr & Hp & _ & _).
  - simpl. discriminate.
  - intros [[|p rest]|]; simpl; discriminate.
  - exists r, pts. split; [exact Hr|]. split; [exact Hp|].
    vm_compute in Hr. injection Hr as <-. simpl in Hp. injection Hp as <-.
    simpl. auto.
Defined.

Lemma genuine_length (components : list bounds) (ac : bool) (c : leg_call) :
  genuine components ac c -> (length (contribution c) <= 3)%nat.
Proof.
  intros [E _]. unfold contribution.
  destruct (leg_start c) as [s [sd|]] eqn:Hs; destruct (leg_end c) as [e ed].
  - destruct (leg_vertices c) as [|p l'] eqn:Hl; [simpl; lia|].
    assert (S : sound_leg components ac sd ed s e (p :: l'))
      by (apply connect_simple_sound; [exact E|discriminate]).
    destruct S as (_ & _ & _ & _ & S1 & S2).
    destruct (Qeq_bool (fst s) (fst e) || Qeq_bool (snd s) (snd e)) eqn:C.
    + apply collinear_iff in C. specialize (S1 C). simpl in *. lia.
    + apply not_collinear_iff in C. destruct (S2 C) as [_ [L|L]]; simpl in *; lia.
  - rewrite connect_simple_undirected in E; [discriminate|reflexivity].
Qed.

Lemma placed_length (components : list bounds) (ac : bool) (cs : list leg_call) :
  Forall (genuine components ac) cs ->
  (length (placed cs) <= 3 * length cs)%nat.
Proof.
  unfold placed. induction 1 as [|c cs Hc _ IH]; simpl; [lia|].
  rewrite length_app. pose proof (genuine_length _ _ c Hc). lia.
Qed.

(** X20.  A route through N anchors has at most 3 (N + 1) vertices after
    the lead-in point: every leg contributes at most three. *)
Theorem make_vertex_bound (K : Type) (components : list bounds)
    (avoid_collision : bool)
    (meander_start_point meander_end_point : QRoutePoint)
    (get_tip : option (list point) -> QRoutePoint) (anchors : list (K * point)) :
  direction meander_start_point <> None ->
  (forall pts, direction (get_tip pts) <> None) ->
  exists r pts,
    make components avoid_collision meander_start_point meander_end_point
         get_tip anchors = Ret r /\
    intermediate_pts r = Some pts /\
    (length pts <= 3 * (length anchors + 1))%nat.
Proof.
  intros Hs Ht.
  destruct (make_trace components avoid_collision meander_start_point
              meander_end_point get_tip Hs Ht anchors)
    as (st & leg & E & Hends & _ & _ & Hg & _).
  cbv zeta in E. eexists. eexists. split; [exact E|]. split; [reflexivity|].
  pose proof (placed_length _ _ _ Hg) as L.
  rewrite length_app in L. simpl in L.
  apply (f_equal (@length _)) in Hends. rewrite !length_map in Hends.
  rewrite Hends in L. exact L.
Qed.

Lemma make_vertex_bound_witness :
  exists r pts,
    make [] false (mkQRoutePoint (0, 0) (Some (1, 0)))
      (mkQRoutePoint (5, 5) (Some (0, -1)))
      (tip_of (mkQRoutePoint (0, 0) (Some (1, 0))))
      [(1%nat, (2, 0)); (2%nat, (2, 3))] = Ret r /\
    intermediate_pts r = Some pts /\ (length pts <= 9)%nat.
Proof.
  apply (make_vertex_bound nat [] false (mkQRoutePoint (0, 0) (Some (1, 0)))
              (mkQRoutePoint (5, 5) (Some (0, -1)))
              (tip_of (mkQRoutePoint (0, 0) (Some (1, 0))))
              [(1%nat, (2, 0)); (2%nat, (2, 3))]).
  - simpl. discriminate.
  - intros [[|p rest]|]; simpl; discriminate.
Defined.

(** X21.  A leg from a point to itself is the two-vertex path [[p, p]],
    whatever the directions and the obstacles: the path holds the same
    point twice. *)
Theorem connect_simple_same_point (components : list bounds) (ac : bool)
    (p sd : point) (ed : option point) :
  connect_simple components ac (mkQRoutePoint p (Some sd)) (mkQRoutePoint p ed)
  = Ret [p; p].
Proof.
  rewrite connect_simple_straight
    by (rewrite Qeq_bool_refl; reflexivity).
  assert (Z : forall u v : point, dot u (vsub p p) == 0 /\ dot (vsub p p) v == 0).
  { intros u v. unfold dot, vsub. simpl. split; ring. }
  assert (A : Qge_bool (dot sd (vsub p p)) 0 = true).
  { apply Qge_bool_iff. destruct (Z sd sd) as [-> _]. lra. }
  assert (B : none_or ed (fun u => Qle_bool (dot (vsub p p) u) 0) = true).
  { apply toward_le. intros u _. destruct (Z u u) as [_ ->]. lra. }
  rewrite A, B. reflexivity.
Qed.

(** X22.  For two ends that share a coordinate, [connect_simple] returns
    the straight path or nothing, and the straight path exactly when the
    start direction does not oppose [end - start] and the end direction, if
    any, does not follow it. *)
Theorem connect_simple_collinear_exact (components : list bounds) (ac : bool)
    (s sd e : point) (ed : option point) :
  collinear s e ->
  let leg := connect_simple components ac (mkQRoutePoint s (Some sd))
                            (mkQRoutePoint e ed) in
  (leg = Ret [s; e] \/ leg = Ret []) /\
  (leg = Ret [s; e] <->
   0 <= dot sd (vsub e s) /\
   forall u, ed = Some u -> dot (vsub e s) u <= 0).
Proof.
  intros C. cbv zeta. apply collinear_iff in C.
  rewrite (connect_simple_straight _ _ _ _ _ _ C).
  rewrite <- Qge_bool_iff, <- toward_le, <- andb_true_iff.
  destruct (_ && _); split; auto; split; auto; discriminate.
Qed.

Lemma connect_simple_collinear_exact_witness :
  connect_simple [] false (mkQRoutePoint (0, 0) (Some (0, 1)))
                          (mkQRoutePoint (5, 0) (Some (0, 1)))
  = Ret [(0, 0); (5, 0)].
Proof.
  apply (proj2 (connect_simple_collinear_exact [] false (0, 0) (0, 1) (5, 0)
                  (Some (0, 1)) (or_intror (Qeq_refl 0)))).
  split; [vm_compute; discriminate|].
  intros u E. injection E as <-. vm_compute. discriminate.
Defined.

(** * Logger set-up *)







Lemma setup_logger_configured (n log_format log_datefmt : String.string)
    (level_stream level_base : Z) (st : logging_module) (lg : Logger) :
  find_logger n (loggers st) = Some lg -> handlers lg <> [] ->
  setup_logger n log_format log_datefmt level_stream level_base st = st.
Proof.
  intros E H. unfold setup_logger, getLogger. rewrite E. rewrite E.
  destruct (handlers lg); [contradiction H; reflexivity|reflexivity].
Qed.



(** X24.  A logger that already has a handler is left as it is: no handler
    is added, its level and its [propagate] flag are kept, and warnings are
    not redirected. *)
Theorem setup_logger_keeps_configured (n log_format log_datefmt : String.string)
    (level_stream level_base : Z) (st : logging_module) (lg : Logger) :
  find_logger n (loggers st) = Some lg -> handlers lg <> [] ->
  setup_logger n log_format log_datefmt level_stream level_base st = st.
Proof. apply setup_logger_configured. Qed.

Lemma setup_logger_keeps_configured_witness :
  setup_logger "metal"%string "%(message)s"%string "%H:%M"%string INFO DEBUG
    (mkLogging [("metal"%string, mkLogger [0%nat] true 30 None None)]
               [mkHandler None 0] false)
  = mkLogging [("metal"%string, mkLogger [0%nat] true 30 None None)]
              [mkHandler None 0] false.
Proof.
  apply (setup_logger_keeps_configured "metal"%string "%(message)s"%string "%H:%M"%string INFO DEBUG
           _ (mkLogger [0%nat] true 30 None None)).
  - reflexivity.
  - discriminate.
Defined.





(** * The straight connector *)


(** What a successful [make] adds. *)
Lemma straight_make_lines (connectors : list (String.string * connector))
    (p : straight_options) (els : list path_element) :
  straight_make connectors p = inr els ->
  exists c1 c2 pts,
    find_connector (pin_start_name p) connectors = Some c1 /\
    find_connector (pin_end_name p) connectors = Some c2 /\
    pts = [middle c1; along c1 (cpw_width p / 2 + leadin_start p);
           along c2 (cpw_width p / 2 + leadin_end p); middle c2] /\
    els = [mkPath center_trace pts (cpw_width p) (Some (layer p)) false;
           mkPath gnd_cut pts (cpw_width p + 2 * cpw_gap p) None true].
Proof.
  unfold straight_make.
  destruct (find_connector (pin_start_name p) connectors) as [c1|]; [|discriminate].
  destruct (find_connector (pin_end_name p) connectors) as [c2|]; [|discriminate].
  intros X. injection X as <-. exists c1, c2. eexists. repeat split.
Qed.

(** X28.  The connector does not depend on which pin is called the start:
    with the two pin names and the two lead-ins exchanged, [make] adds the
    same two elements with their line reversed. *)
Theorem straight_make_reversed (connectors : list (String.string * connector))
    (p : straight_options) (els : list path_element) :
  straight_make connectors p = inr els ->
  straight_make connectors
    (mkStraightOptions (pin_end_name p) (pin_start_name p) (cpw_width p)
                       (cpw_gap p) (layer p) (leadin_end p) (leadin_start p))
  = inr (map (fun el => mkPath (elem_name el) (rev (line el)) (width el)
                               (elem_layer el) (subtract el)) els).
Proof.
  intros H. destruct (straight_make_lines connectors p els H)
    as (c1 & c2 & pts & E1 & E2 & -> & ->).
  unfold straight_make. simpl. rewrite E2, E1. reflexivity.
Qed.

Lemma straight_make_reversed_witness :
  straight_make
    [("Q1_a"%string, mkConnector (0, 0) (1, 0));
     ("Q2_b"%string, mkConnector (10, 0) (-1, 0))]
    (mkStraightOptions "Q2_b"%string "Q1_a"%string 2 1 1 3 0)
  = inr (map (fun el => mkPath (elem_name el) (rev (line el)) (width el)
                               (elem_layer el) (subtract el))
           [mkPath center_trace
              [(0, 0); (0 + 1 * (2 / 2 + 0), 0 + 0 * (2 / 2 + 0));
               (10 + -1 * (2 / 2 + 3), 0 + 0 * (2 / 2 + 3)); (10, 0)]
              2 (Some 1%Z) false;
            mkPath gnd_cut
              [(0, 0); (0 + 1 * (2 / 2 + 0), 0 + 0 * (2 / 2 + 0));
               (10 + -1 * (2 / 2 + 3), 0 + 0 * (2 / 2 + 3)); (10, 0)]
              (2 + 2 * 1) None true]).
Proof.
  exact (straight_make_reversed
           [("Q1_a"%string, mkConnector (0, 0) (1, 0));
            ("Q2_b"%string, mkConnector (10, 0) (-1, 0))]
           (mkStraightOptions "Q1_a"%string "Q2_b"%string 2 1 1 0 3)
           _ eq_refl).
Defined.
